(** * The volumes API controller (cinder/api/v2/volumes.py)

    A shallow embedding of [VolumeController]: the request mappings are
    finite maps from strings to JSON-like Python values, the collaborators
    the controller talks to (volume API, volume types, consistency groups,
    image service, view builder, the helpers of [cinder.api.common] and
    [cinder.utils]) are calls of a free monad, and an exception is an
    early exit of a program.  A handler answers the calls; running a
    program against a handler yields the trace of calls with their
    replies and the outcome. *)

From Stdlib Require Import ZArith Ascii String List.
From stdpp Require Import base option list gmap strings fin_maps.

Local Open Scope string_scope.
Local Open Scope list_scope.
Set Warnings "-register-all,-notation-for-abbreviation,-clear-no-such-hyp".

(** ** Python values *)

Module Py.

(** What a deserialized JSON body, a query parameter or a record handed
    back by a collaborator can be. *)
Inductive value : Type :=
| VNone
| VBool (b : bool)
| VInt (z : Z)
| VStr (s : string)
| VList (l : list value)
| VDict (d : gmap string value).

Notation dict := (gmap string value).

(** [bool(v)]: the truth value tested by [if v:] and [not v]. *)
Definition truthy (v : value) : bool :=
  match v with
  | VNone => false
  | VBool b => b
  | VInt z => negb (Z.eqb z 0)
  | VStr s => match s with EmptyString => false | String _ _ => true end
  | VList l => match l with [] => false | _ => true end
  | VDict d => negb (bool_decide (d = ∅))
  end.

(** [v is None] *)
Definition is_None (v : value) : bool :=
  match v with VNone => true | _ => false end.

(** [v == s] for a string literal [s]. *)
Definition eq_str (v : value) (s : string) : bool :=
  match v with VStr s' => String.eqb s' s | _ => false end.

(** [d.get(k, default)] *)
Definition get (d : dict) (k : string) (default : value) : value :=
  match d !! k with Some v => v | None => default end.

(** [t in s] on two strings: [t] occurs in [s]. *)
Fixpoint str_contains (t s : string) : bool :=
  String.prefix t s ||
  match s with
  | EmptyString => false
  | String _ s' => str_contains t s'
  end.

(** [s.split(sep)] for a one-character separator: the pieces between the
    separators, never an empty list. *)
Fixpoint split (sep : ascii) (s : string) : list string :=
  match s with
  | EmptyString => [EmptyString]
  | String c s' =>
      if Ascii.eqb c sep then EmptyString :: split sep s'
      else match split sep s' with
           | piece :: rest => String c piece :: rest
           | [] => [String c EmptyString]
           end
  end.

(** [l.pop()] on a list that is not empty: its last element. *)
Definition pop (l : list string) : string := List.last l EmptyString.

(** [l.index(s)]: the position of the first element equal to [s]. *)
Fixpoint list_index (s : string) (l : list value) : option nat :=
  match l with
  | [] => None
  | v :: l' => if eq_str v s then Some 0 else S <$> list_index s l'
  end.

End Py.

Import Py.

(** ** Exceptions *)

(** A translated message: the format string and the value substituted for
    its [%s], when there is one. *)
Record message := Msg { fmt : string; arg : option value }.

(** The exceptions (all subclasses of [Exception]) the controller raises,
    catches by class, or lets through.  The errors of the Python runtime
    are the ones its dict, string and list operations raise. *)
Inductive exn : Type :=
| HTTPBadRequest (explanation : message)
| HTTPConflict (explanation : message)
| HTTPRequestEntityTooLarge (explanation : message)
| InvalidVolumeMetadataSize (msg : message)
| InvalidInput (msg : message)
| NotFound (msg : message)
| KeyError (key : string)
| TypeError
| AttributeError
| OtherException (name : string).

(** [v[k]] for a string key. *)
Definition subscript (v : value) (k : string) : exn + value :=
  match v with
  | VDict d => match d !! k with Some x => inr x | None => inl (KeyError k) end
  | _ => inl TypeError
  end.

(** [k in v] for a string [k]. *)
Definition contains (k : string) (v : value) : exn + bool :=
  match v with
  | VDict d => inr (bool_decide (is_Some (d !! k)))
  | VStr s => inr (str_contains k s)
  | VList l => inr (existsb (fun x => eq_str x k) l)
  | _ => inl TypeError
  end.

(** [v.update(d)] *)
Definition dict_update (v : value) (d : dict) : exn + value :=
  match v with
  | VDict d0 => inr (VDict (d ∪ d0))
  | _ => inl AttributeError
  end.

(** ** Collaborators *)

(** The calls that leave the controller, indexed by what they hand back.
    The request context and the request object are the handler's.  The
    checks ([assert_valid_body], [validate_name_and_description],
    [check_volume_filters]) return or raise; a helper that is given a
    mutable mapping in order to consume or strip keys
    ([get_pagination_params], [get_sort_params],
    [remove_invalid_filter_options]) hands the mapping back as it left it;
    [image_service_detail] stands for [list(image_service.detail(...))]. *)
Inductive call : Type -> Type :=
| assert_valid_body (body : value) (entity_name : string) : call unit
| validate_name_and_description (body : dict) : call unit
| get_volume_type_by_name (name : value) : call value
| get_volume_type (id : value) : call value
| get_snapshot (snapshot_id : value) : call value
| get_volume (volume_id : value) : call value
| consistencygroup_get (group_id : value) : call value
| ext_mgr_is_loaded (alias : string) : call bool
| get_default_image_service : call unit
| image_service_show (image_id : string) : call value
| image_service_detail (filters : dict) : call (list value)
| volume_api_create (size name description : value) (kwargs : dict) : call value
| view_builder_detail (volume : value) : call value
| get_pagination_params (params : dict) : call (value * value * value * dict)
| get_sort_params (params : dict) : call (list value * list value * dict)
| remove_invalid_filter_options (filters : dict) (allowed : list string) : call dict
| check_volume_filters (filters : dict) : call unit
| volume_api_get_all (marker limit : value) (sort_keys sort_dirs : list value)
    (filters : dict) (offset : value) : call (list value)
| add_visible_admin_metadata (volume : value) : call value
| cache_db_volumes (volumes : list value) : call unit
| view_builder_detail_list (volumes : list value) : call value
| view_builder_summary_list (volumes : list value) : call value
| volume_api_get (id : value) : call value
| notify_about_volume_usage (volume : value) (event_suffix : string) : call unit
| volume_api_update (volume : value) (fields : dict) : call unit.

(** ** Programs *)

Inductive prog (A : Type) : Type :=
| Ret (a : A)
| Raise (e : exn)
| Vis {X : Type} (c : call X) (k : exn + X -> prog A).

Arguments Ret {A} a.
Arguments Raise {A} e.
Arguments Vis {A X} c k.

Fixpoint bind {A B} (p : prog A) (f : A -> prog B) : prog B :=
  match p with
  | Ret a => f a
  | Raise e => Raise e
  | Vis c k => Vis c (fun r => bind (k r) f)
  end.

Instance prog_ret : MRet prog := fun A a => Ret a.
Instance prog_bind : MBind prog := fun A B f p => bind p f.

(** [try: p except Exception as e: f e] *)
Fixpoint try_except {A} (p : prog A) (f : exn -> prog A) : prog A :=
  match p with
  | Ret a => Ret a
  | Raise e => f e
  | Vis c k => Vis c (fun r => try_except (k r) f)
  end.

(** A pure operation that may raise. *)
Definition lift {A} (r : exn + A) : prog A :=
  match r with inl e => Raise e | inr a => Ret a end.

(** A collaborator call: its exception propagates. *)
Definition perform {X} (c : call X) : prog X := Vis c lift.

(** ** Running a program *)

Inductive event : Type :=
| Ev (X : Type) (c : call X) (r : exn + X).

Arguments Ev {X} c r.

Definition handler (St : Type) : Type := forall X, call X -> St -> (exn + X) * St.

Fixpoint run {A St} (h : handler St) (p : prog A) (s : St)
  : list event * (exn + A) * St :=
  match p with
  | Ret a => ([], inr a, s)
  | Raise e => ([], inl e, s)
  | Vis c k =>
      let '(r, s1) := h _ c s in
      let '(tr, out, s2) := run h (k r) s1 in
      (Ev c r :: tr, out, s2)
  end.

Instance prog_fmap : FMap prog := fun A B f p => bind p (fun a => Ret (f a)).

(** [for x in l: x = f(x)], collecting the results. *)
Fixpoint for_each {A B} (f : A -> prog B) (l : list A) : prog (list B) :=
  match l with
  | [] => mret []
  | x :: l' => y ← f x; ys ← for_each f l'; mret (y :: ys)
  end.

(** [for x in l: acc = f(acc, x)] *)
Fixpoint for_fold {A B} (f : B -> A -> prog B) (acc : B) (l : list A) : prog B :=
  match l with
  | [] => mret acc
  | x :: l' => acc' ← f acc x; for_fold f acc' l'
  end.

(** [a and b], where [b] is evaluated only when [a] holds. *)
Definition and_then (a : bool) (b : prog bool) : prog bool :=
  if a then b else mret false.

(** ** The controller *)

Section VolumeController.

(** [oslo_utils.uuidutils.is_uuid_like], a library predicate that answers
    on every value. *)
Variable is_uuid_like : value -> bool.

(** [CONF.query_volume_filters], the configured allow-list. *)
Variable query_volume_filters : list string.

(** [if a in m: m[c] = m.pop(a)] *)
Definition rename (a c : string) (m : dict) : dict :=
  match m !! a with
  | Some v => <[c := v]> (delete a m)
  | None => m
  end.

(** [if a in m: m[c] = m.get(a); del m[a]] *)
Definition rename_del (a c : string) (m : dict) : dict :=
  match m !! a with
  | Some _ => delete a (<[c := get m a VNone]> m)
  | None => m
  end.

(** Lines 186-196 of [create]: the client-facing aliases. *)
Definition normalize (volume : dict) : dict :=
  let volume := rename "name" "display_name" volume in
  let volume := rename "description" "display_description" volume in
  rename_del "image_id" "imageRef" volume.

(** *** [_image_uuid_from_ref] *)

(** [image_ref.split('/').pop()]; only a string has [split]. *)
Definition split_pop (image_ref : value) : exn + string :=
  match image_ref with
  | VStr s => inr (pop (split "/" s))
  | _ => inl AttributeError
  end.

(** Lines 143-150: the direct lookup; [None] stands for falling out of
    the block without returning. *)
Definition lookup_by_id (image_uuid : string) : prog (option value) :=
  if is_uuid_like (VStr image_uuid) then
    try_except
      (image ← perform (image_service_show image_uuid);
       has_id ← lift (contains "id" image);
       if (has_id : bool) then Some <$> lift (subscript image "id")
       else mret None)
      (fun _ => mret None)
  else mret None.

(** Lines 153-167: the search by name. *)
Definition lookup_by_name (image_ref : value) : prog (option value) :=
  try_except
    (images ← perform (image_service_detail {["name" := image_ref]});
     if (1 <? length images)%nat then
       Raise (HTTPConflict
                (Msg "Multiple matches found for '%s', use an ID to be more specific."
                     (Some image_ref)))
     else match images with
          | img :: _ => Some <$> lift (subscript img "id")
          | [] => mret None
          end)
    (fun e => match e with
              | HTTPConflict _ => Raise e
              | _ => mret None
              end).

Definition _image_uuid_from_ref (image_ref : value) : prog value :=
  image_uuid ← try_except (lift (split_pop image_ref))
    (fun e => match e with
              | AttributeError =>
                  Raise (HTTPBadRequest (Msg "Invalid imageRef provided." None))
              | _ => Raise e
              end);
  _ ← perform get_default_image_service;
  by_id ← lookup_by_id image_uuid;
  match by_id with
  | Some id => mret id
  | None =>
      by_name ← lookup_by_name image_ref;
      match by_name with
      | Some id => mret id
      | None =>
          Raise (HTTPBadRequest
                   (Msg "Invalid image identifier or unable to access requested image."
                        None))
      end
  end.

(** *** [create] *)

(** [body['volume']] once [assert_valid_body] has let the body through; a
    value that is not a mapping has none of the dict methods used next. *)
Definition body_volume (body : value) : exn + dict :=
  match subscript body "volume" with
  | inl e => inl e
  | inr (VDict volume) => inr volume
  | inr _ => inl AttributeError
  end.

(** Lines 198-207 *)
Definition resolve_volume_type (volume kwargs : dict) : prog dict :=
  let req_volume_type := get volume "volume_type" VNone in
  if truthy req_volume_type then
    if negb (is_uuid_like req_volume_type) then
      vt ← perform (get_volume_type_by_name req_volume_type);
      mret (<["volume_type" := vt]> kwargs)
    else
      vt ← perform (get_volume_type req_volume_type);
      mret (<["volume_type" := vt]> kwargs)
  else mret kwargs.

(** Lines 211-217 *)
Definition resolve_snapshot (volume kwargs : dict) : prog dict :=
  let snapshot_id := get volume "snapshot_id" VNone in
  if negb (is_None snapshot_id) then
    snapshot ← perform (get_snapshot snapshot_id);
    mret (<["snapshot" := snapshot]> kwargs)
  else mret (<["snapshot" := VNone]> kwargs).

(** Lines 219-226 *)
Definition resolve_source_volume (volume kwargs : dict) : prog dict :=
  let source_volid := get volume "source_volid" VNone in
  if negb (is_None source_volid) then
    source_volume ← perform (get_volume source_volid);
    mret (<["source_volume" := source_volume]> kwargs)
  else mret (<["source_volume" := VNone]> kwargs).

(** Lines 228-239 *)
Definition resolve_source_replica (volume kwargs : dict) : prog dict :=
  let source_replica := get volume "source_replica" VNone in
  if negb (is_None source_replica) then
    src_vol ← perform (get_volume source_replica);
    status ← lift (subscript src_vol "replication_status");
    if eq_str status "disabled" then
      Raise (HTTPBadRequest
               (Msg "source volume id:%s is not replicated" (Some source_replica)))
    else mret (<["source_replica" := src_vol]> kwargs)
  else mret (<["source_replica" := VNone]> kwargs).

(** Lines 241-248 *)
Definition resolve_consistencygroup (volume kwargs : dict) : prog dict :=
  let consistencygroup_id := get volume "consistencygroup_id" VNone in
  if negb (is_None consistencygroup_id) then
    group ← perform (consistencygroup_get consistencygroup_id);
    mret (<["consistencygroup" := group]> kwargs)
  else mret (<["consistencygroup" := VNone]> kwargs).

(** [kwargs[k] is not None] *)
Definition resolved (kwargs : dict) (k : string) : prog bool :=
  v ← lift (subscript (VDict kwargs) k); mret (negb (is_None v)).

(** Lines 250-256 *)
Definition derive_size (volume kwargs : dict) : prog value :=
  let size := get volume "size" VNone in
  c ← and_then (is_None size) (resolved kwargs "snapshot");
  if (c : bool) then
    snapshot ← lift (subscript (VDict kwargs) "snapshot");
    lift (subscript snapshot "volume_size")
  else
    c ← and_then (is_None size) (resolved kwargs "source_volume");
    if (c : bool) then
      source_volume ← lift (subscript (VDict kwargs) "source_volume");
      lift (subscript source_volume "size")
    else
      c ← and_then (is_None size) (resolved kwargs "source_replica");
      if (c : bool) then
        source_replica ← lift (subscript (VDict kwargs) "source_replica");
        lift (subscript source_replica "size")
      else mret size.

(** Lines 260-264 *)
Definition resolve_image (volume kwargs : dict) : prog dict :=
  loaded ← perform (ext_mgr_is_loaded "os-image-create");
  if (loaded : bool) then
    let image_ref := get volume "imageRef" VNone in
    if negb (is_None image_ref) then
      image_uuid ← _image_uuid_from_ref image_ref;
      mret (<["image_id" := image_uuid]> kwargs)
    else mret kwargs
  else mret kwargs.

Definition create (body : value) : prog value :=
  _ ← perform (assert_valid_body body "volume");
  volume ← lift (body_volume body);
  let kwargs : dict := ∅ in
  _ ← perform (validate_name_and_description volume);
  let volume := normalize volume in
  kwargs ← resolve_volume_type volume kwargs;
  let kwargs := <["metadata" := get volume "metadata" VNone]> kwargs in
  kwargs ← resolve_snapshot volume kwargs;
  kwargs ← resolve_source_volume volume kwargs;
  kwargs ← resolve_source_replica volume kwargs;
  kwargs ← resolve_consistencygroup volume kwargs;
  size ← derive_size volume kwargs;
  kwargs ← resolve_image volume kwargs;
  let kwargs := <["availability_zone" := get volume "availability_zone" VNone]> kwargs in
  let kwargs := <["scheduler_hints" := get volume "scheduler_hints" VNone]> kwargs in
  let multiattach := get volume "multiattach" (VBool false) in
  let kwargs := <["multiattach" := multiattach]> kwargs in
  new_volume ← perform (volume_api_create size
                          (get volume "display_name" VNone)
                          (get volume "display_description" VNone)
                          kwargs);
  perform (view_builder_detail new_volume).

(** *** [_get_volumes] *)

(** Lines 104-105: [sort_keys.index('name')] is a position exactly when
    ['name' in sort_keys]. *)
Definition alias_sort_keys (sort_keys : list value) : list value :=
  match list_index "name" sort_keys with
  | Some i => <[i := VStr "display_name"]> sort_keys
  | None => sort_keys
  end.

(** Lines 107-109 *)
Definition alias_filters (filters : dict) : dict :=
  match filters !! "name" with
  | Some v => delete "name" (<["display_name" := v]> filters)
  | None => filters
  end.

(** The query parameters are a mapping with one value per key, and
    [req.params.copy()] is that mapping again. *)
Definition _get_volumes (req_params : dict) (is_detail : bool) : prog value :=
  let params := req_params in
  '(marker, limit, offset, params) ← perform (get_pagination_params params);
  '(sort_keys, sort_dirs, params) ← perform (get_sort_params params);
  let filters := params in
  let filters := delete "glance_metadata" filters in
  filters ← perform (remove_invalid_filter_options filters query_volume_filters);
  let sort_keys := alias_sort_keys sort_keys in
  let filters := alias_filters filters in
  _ ← perform (check_volume_filters filters);
  volumes ← perform (volume_api_get_all marker limit sort_keys sort_dirs filters offset);
  volumes ← for_each (fun volume => perform (add_visible_admin_metadata volume)) volumes;
  _ ← perform (cache_db_volumes volumes);
  if is_detail then perform (view_builder_detail_list volumes)
  else perform (view_builder_summary_list volumes).

Definition index (req_params : dict) : prog value := _get_volumes req_params false.
Definition detail (req_params : dict) : prog value := _get_volumes req_params true.

(** *** [update] *)

Definition valid_update_keys : list string :=
  ["name"; "description"; "display_name"; "display_description"; "metadata"].

(** Lines 308-310 *)
Definition extract_update (volume : value) : prog dict :=
  for_fold
    (fun update_dict key =>
       present ← lift (contains key volume);
       if (present : bool) then
         v ← lift (subscript volume key);
         mret (<[key := v]> update_dict)
       else mret update_dict)
    (∅ : dict) valid_update_keys.

(** Lines 289-321: the field set handed on to the volume API. *)
Definition update_fields (body : value) : prog dict :=
  if negb (truthy body) then
    Raise (HTTPBadRequest (Msg "Missing request body" None))
  else
    present ← lift (contains "volume" body);
    if negb present then
      Raise (HTTPBadRequest
               (Msg "Missing required element '%s' in request body"
                    (Some (VStr "volume"))))
    else
      volume ← lift (subscript body "volume");
      update_dict ← extract_update volume;
      _ ← perform (validate_name_and_description update_dict);
      let update_dict := rename "name" "display_name" update_dict in
      let update_dict := rename "description" "display_description" update_dict in
      mret update_dict.

Definition update (id body : value) : prog value :=
  update_dict ← update_fields body;
  volume ← try_except
    (volume ← perform (volume_api_get id);
     _ ← perform (notify_about_volume_usage volume "update.start");
     _ ← perform (volume_api_update volume update_dict);
     mret volume)
    (fun e => match e with
              | InvalidVolumeMetadataSize msg => Raise (HTTPRequestEntityTooLarge msg)
              | _ => Raise e
              end);
  volume ← lift (dict_update volume update_dict);
  volume ← perform (add_visible_admin_metadata volume);
  _ ← perform (notify_about_volume_usage volume "update.end");
  perform (view_builder_detail volume).

End VolumeController.

(** ** Traces of a program *)

(** [exec p tr out]: against some collaborators, [p] makes exactly the
    calls of [tr], receives the replies recorded there, and ends in [out]. *)
Fixpoint exec {A} (p : prog A) (tr : list event) (out : exn + A) : Prop :=
  match p with
  | Ret a => tr = [] ∧ out = inr a
  | Raise e => tr = [] ∧ out = inl e
  | Vis c k => ∃ r tr', tr = Ev c r :: tr' ∧ exec (k r) tr' out
  end.

(** The arguments of a call of the volume API's [create]. *)
Definition dispatched (ev : event) : option (value * value * value * dict) :=
  match ev with
  | Ev c _ =>
      match c with
      | volume_api_create size name description kwargs =>
          Some (size, name, description, kwargs)
      | _ => None
      end
  end.

(** The argument and the reply of a lookup of the kind of [c]. *)
Definition lookup_of (ev : event) : option (nat * value * (exn + value)) :=
  match ev with
  | Ev c r =>
      match c in call X return (exn + X) -> option (nat * value * (exn + value)) with
      | get_volume_type_by_name v => fun r => Some (0, v, r)
      | get_volume_type v => fun r => Some (1, v, r)
      | get_snapshot v => fun r => Some (2, v, r)
      | get_volume v => fun r => Some (3, v, r)
      | consistencygroup_get v => fun r => Some (4, v, r)
      | _ => fun _ => None
      end r
  end.

(** No call of the volume API's [create], and no lookup that failed. *)
Definition clean (ev : event) : bool :=
  match dispatched ev, lookup_of ev with
  | Some _, _ => false
  | None, Some (_, _, inl _) => false
  | None, _ => true
  end.

(** The calls that are neither the volume API's [create] nor a lookup of a
    volume type, snapshot, volume or consistency group. *)
Definition auxiliary {X} (c : call X) : bool :=
  match c with
  | volume_api_create _ _ _ _ => false
  | get_volume_type_by_name _ | get_volume_type _ | get_snapshot _
  | get_volume _ | consistencygroup_get _ => false
  | _ => true
  end.

(** Every call a program can make is an auxiliary one. *)
Fixpoint only_auxiliary {A} (p : prog A) : Prop :=
  match p with
  | Ret _ | Raise _ => True
  | Vis c k => auxiliary c = true ∧ ∀ r, only_auxiliary (k r)
  end.

(** A failed lookup in the trace is the outcome of the run. *)
Definition failed_lookup_propagates {A} (tr : list event) (out : exn + A) : Prop :=
  ∀ ev k v e, In ev tr -> lookup_of ev = Some (k, v, inl e) -> out = inl e.

(** [handle] is what [lookup ref] handed back in [tr], or [None] when the
    request carries no reference. *)
Definition resolved_by (lookup : value -> call value) (ref : value)
    (tr : list event) (handle : value) : Prop :=
  if is_None ref then handle = VNone
  else In (Ev (lookup ref) (inr handle)) tr.

(** The size by priority: the requested size, else the size recorded in
    the snapshot, else the source volume's, else the source replica's,
    else undetermined. *)
Definition size_by_priority (requested snapshot source_volume source_replica : value)
  : exn + value :=
  if negb (is_None requested) then inr requested
  else if negb (is_None snapshot) then subscript snapshot "volume_size"
  else if negb (is_None source_volume) then subscript source_volume "size"
  else if negb (is_None source_replica) then subscript source_replica "size"
  else inr VNone.

(** The trace of a lookup that is made only when the reference is
    present, and then succeeds with [handle]. *)
Definition looked_up (present : bool) (c : call value) (handle : value) : list event :=
  if present then [Ev c (inr handle)] else [].

(** A run that failed without reaching the volume API's [create]. *)
Definition failed (tr : list event) (e : exn) : Prop :=
  Forall (fun ev => dispatched ev = None) tr ∧
  failed_lookup_propagates tr (inl e : exn + value).

(** The volume-type lookup chosen for a reference: by identifier when it
    is UUID-like, by name otherwise. *)
Definition volume_type_lookup (is_uuid_like : value -> bool) (ref : value) : call value :=
  if is_uuid_like ref then get_volume_type ref else get_volume_type_by_name ref.

(** What a lookup's reply makes of the keyword arguments. *)
Definition store (k : string) (kwargs : dict) (r : exn + value) : exn + dict :=
  match r with
  | inl e => inl e
  | inr handle => inr (<[k := handle]> kwargs)
  end.

(** A resolved source replica whose replication is not disabled. *)
Definition replicated (src_vol : value) : Prop :=
  ∃ status, subscript src_vol "replication_status" = inr status ∧
            eq_str status "disabled" = false.

(** An event of an auxiliary call. *)
Definition aux_event (ev : event) : bool :=
  match ev with Ev c _ => auxiliary c end.

(** The keyword arguments [create] assembles from the normalized request
    and the resolved handles. *)
Definition assembled (volume : dict) (volume_type : option value)
    (snapshot source_volume source_replica group : value)
    (image_id : option value) : dict :=
  let kwargs : dict :=
    match volume_type with
    | Some t => <["volume_type" := t]> ∅
    | None => ∅
    end in
  let kwargs := <["metadata" := get volume "metadata" VNone]> kwargs in
  let kwargs := <["snapshot" := snapshot]> kwargs in
  let kwargs := <["source_volume" := source_volume]> kwargs in
  let kwargs := <["source_replica" := source_replica]> kwargs in
  let kwargs := <["consistencygroup" := group]> kwargs in
  let kwargs :=
    match image_id with
    | Some u => <["image_id" := u]> kwargs
    | None => kwargs
    end in
  let kwargs := <["availability_zone" := get volume "availability_zone" VNone]> kwargs in
  let kwargs := <["scheduler_hints" := get volume "scheduler_hints" VNone]> kwargs in
  <["multiattach" := get volume "multiattach" (VBool false)]> kwargs.

(** The two shapes of a run of [create]: it fails before the volume API's
    [create] is reached, or every reference is resolved, in the order of
    the source, and the assembled command is handed over. *)
Inductive create_run (is_uuid_like : value -> bool) (body : value)
    (tr : list event) (out : exn + value) : Prop :=
| create_failed e :
    out = inl e ->
    failed tr e ->
    create_run is_uuid_like body tr out
| create_dispatched raw t snapshot source_volume source_replica group
    image_tr image_id size r post :
    body_volume body = inr raw ->
    let volume := normalize raw in
    let req_volume_type := get volume "volume_type" VNone in
    let snapshot_id := get volume "snapshot_id" VNone in
    let source_volid := get volume "source_volid" VNone in
    let replica_id := get volume "source_replica" VNone in
    let group_id := get volume "consistencygroup_id" VNone in
    let kwargs :=
      assembled volume (if truthy req_volume_type then Some t else None)
        snapshot source_volume source_replica group image_id in
    tr = [Ev (assert_valid_body body "volume") (inr ());
          Ev (validate_name_and_description raw) (inr ())]
         ++ looked_up (truthy req_volume_type)
              (volume_type_lookup is_uuid_like req_volume_type) t
         ++ looked_up (negb (is_None snapshot_id)) (get_snapshot snapshot_id) snapshot
         ++ looked_up (negb (is_None source_volid)) (get_volume source_volid)
              source_volume
         ++ looked_up (negb (is_None replica_id)) (get_volume replica_id)
              source_replica
         ++ looked_up (negb (is_None group_id)) (consistencygroup_get group_id) group
         ++ image_tr
         ++ Ev (volume_api_create size
                  (get volume "display_name" VNone)
                  (get volume "display_description" VNone)
                  kwargs) r
            :: post ->
    (is_None snapshot_id = true -> snapshot = VNone) ->
    (is_None source_volid = true -> source_volume = VNone) ->
    (if is_None replica_id then source_replica = VNone else replicated source_replica) ->
    (is_None group_id = true -> group = VNone) ->
    Forall (fun ev => aux_event ev = true) image_tr ->
    size_by_priority (get volume "size" VNone) snapshot source_volume source_replica
      = inr size ->
    match r with
    | inl e => post = [] ∧ out = inl e
    | inr new_volume => post = [Ev (view_builder_detail new_volume) out]
    end ->
    create_run is_uuid_like body tr out.

(** The two messages of the image resolver's own failures. *)
Definition invalid_image_ref : exn :=
  HTTPBadRequest (Msg "Invalid imageRef provided." None).

Definition invalid_image_identifier : exn :=
  HTTPBadRequest
    (Msg "Invalid image identifier or unable to access requested image." None).

Definition multiple_matches (image_ref : value) : exn :=
  HTTPConflict
    (Msg "Multiple matches found for '%s', use an ID to be more specific."
         (Some image_ref)).

(** The identifier lookup succeeded: the catalog handed back a record
    that carries an identifier. *)
Definition identified (r : exn + value) : option value :=
  match r with
  | inr (VDict image) => image !! "id"
  | _ => None
  end.

(** What the search by exact name makes of the catalog's answer: no match
    or a failure that is not a Conflict is a BadRequest, several matches
    are a Conflict, a single match gives its identifier. *)
Definition name_search_outcome (image_ref : value) (r : exn + list value)
  : exn + value :=
  match r with
  | inl (HTTPConflict explanation) => inl (HTTPConflict explanation)
  | inl _ => inl invalid_image_identifier
  | inr [] => inl invalid_image_identifier
  | inr [img] =>
      match subscript img "id" with
      | inr id => inr id
      | inl _ => inl invalid_image_identifier
      end
  | inr (_ :: _ :: _) => inl (multiple_matches image_ref)
  end.

(** The run of the search by name after the events [pre], from state [s]. *)
Definition name_search {St} (h : handler St) (image_ref : value)
    (pre : list event) (s : St) : list event * (exn + value) * St :=
  let '(r, s') := h _ (image_service_detail {["name" := image_ref]}) s in
  (pre ++ [Ev (image_service_detail {["name" := image_ref]}) r],
   name_search_outcome image_ref r, s').

(** ** Collaborators for worked examples *)

(** A reply that fits every call: nothing found, nothing loaded, mappings
    handed back untouched, views that are the record itself. *)
Definition default_reply {X} (c : call X) : X :=
  match c in call X return X with
  | assert_valid_body _ _ => ()
  | validate_name_and_description _ => ()
  | get_volume_type_by_name _ => VNone
  | get_volume_type _ => VNone
  | get_snapshot _ => VNone
  | get_volume _ => VNone
  | consistencygroup_get _ => VNone
  | ext_mgr_is_loaded _ => false
  | get_default_image_service => ()
  | image_service_show _ => VNone
  | image_service_detail _ => []
  | volume_api_create _ _ _ _ => VNone
  | view_builder_detail volume => volume
  | get_pagination_params params => (VNone, VNone, VNone, params)
  | get_sort_params params => ([], [], params)
  | remove_invalid_filter_options filters _ => filters
  | check_volume_filters _ => ()
  | volume_api_get_all _ _ _ _ _ _ => []
  | add_visible_admin_metadata volume => volume
  | cache_db_volumes _ => ()
  | view_builder_detail_list volumes => VList volumes
  | view_builder_summary_list volumes => VList volumes
  | volume_api_get _ => VNone
  | notify_about_volume_usage _ _ => ()
  | volume_api_update _ _ => ()
  end.

(** Stateless collaborators given by the replies that differ from the
    default one. *)
Definition answering (script : forall X, call X -> option (exn + X)) : handler unit :=
  fun X c s =>
    match script X c with
    | Some r => (r, s)
    | None => (inr (default_reply c), s)
    end.

Definition is_hex (c : ascii) : bool :=
  let n := nat_of_ascii c in
  ((48 <=? n) && (n <=? 57) || (97 <=? n) && (n <=? 102) || (65 <=? n) && (n <=? 70))%nat.

(** [s] is made of groups of hexadecimal digits of the given lengths,
    separated by hyphens. *)
Fixpoint hex_groups (groups : list nat) (s : string) : bool :=
  match groups with
  | [] => match s with EmptyString => true | _ => false end
  | O :: groups' =>
      match groups', s with
      | [], EmptyString => true
      | _ :: _, String c s' => Ascii.eqb c "-" && hex_groups groups' s'
      | _, _ => false
      end
  | S n :: groups' =>
      match s with
      | String c s' => is_hex c && hex_groups (n :: groups') s'
      | EmptyString => false
      end
  end.

(** A stand-in for [is_uuid_like]: the canonical 8-4-4-4-12 form. *)
Definition canonical_uuid (v : value) : bool :=
  match v with
  | VStr s => hex_groups [8; 4; 4; 4; 12]%nat s
  | _ => false
  end.

(** A small deployment: snapshot S1 of 10 GB, volume V1, a volume R1
    whose replication is disabled and a volume R2 whose replication is
    enabled, the volume type gold, one image named cirros and two named
    dup, image creation loaded, and a sort parser that keeps a key given
    twice. *)
Definition gold_id : string := "6c6cc8a2-5b1c-4b4f-9a62-0a1d5c1e7f10".
Definition cirros_id : string := "c905cedb-7281-47e4-8a62-f26bc5fc4c77".

Definition snapshot_S1 : value :=
  VDict {["id" := VStr "S1"; "volume_size" := VInt 10]}.
Definition volume_V1 : value :=
  VDict {["id" := VStr "V1"; "size" := VInt 7; "replication_status" := VStr "disabled"]}.
Definition volume_R1 : value :=
  VDict {["id" := VStr "R1"; "size" := VInt 3; "replication_status" := VStr "disabled"]}.
Definition volume_R2 : value :=
  VDict {["id" := VStr "R2"; "size" := VInt 4; "replication_status" := VStr "enabled"]}.
Definition type_gold : value :=
  VDict {["id" := VStr gold_id; "name" := VStr "gold"]}.
Definition image_cirros : value :=
  VDict {["id" := VStr cirros_id; "name" := VStr "cirros"]}.

Definition not_found (what : string) (ref : value) : exn :=
  NotFound (Msg what (Some ref)).

Definition deployment_script (X : Type) (c : call X) : option (exn + X) :=
  match c in call X return option (exn + X) with
  | get_snapshot ref =>
      Some (if eq_str ref "S1" then inr snapshot_S1
            else inl (not_found "Snapshot %s could not be found." ref))
  | get_volume ref =>
      Some (if eq_str ref "V1" then inr volume_V1
            else if eq_str ref "R1" then inr volume_R1
            else if eq_str ref "R2" then inr volume_R2
            else inl (not_found "Volume %s could not be found." ref))
  | get_volume_type ref =>
      Some (if eq_str ref gold_id then inr type_gold
            else inl (not_found "Volume type %s could not be found." ref))
  | get_volume_type_by_name ref =>
      Some (if eq_str ref "gold" then inr type_gold
            else inl (not_found "Volume type with name %s could not be found." ref))
  | consistencygroup_get ref =>
      Some (inl (not_found "ConsistencyGroup %s could not be found." ref))
  | ext_mgr_is_loaded _ => Some (inr true)
  | image_service_show image_id =>
      Some (if String.eqb image_id cirros_id then inr image_cirros
            else inl (not_found "Image %s could not be found." (VStr image_id)))
  | image_service_detail filters =>
      Some (inr (if eq_str (get filters "name" VNone) "cirros" then [image_cirros]
                 else if eq_str (get filters "name" VNone) "dup"
                      then [image_cirros; image_cirros]
                      else []))
  | get_sort_params params =>
      Some (inr (if eq_str (get params "sort" VNone) "name,name"
                 then ([VStr "name"; VStr "name"], [VStr "desc"; VStr "desc"],
                       delete "sort" params)
                 else ([VStr "created_at"], [VStr "desc"], params)))
  | volume_api_get id => Some (inr (VDict {["id" := id; "display_name" := VStr "old"]}))
  | _ => None
  end.

Definition deployment : handler unit := answering deployment_script.

(** The body [{"volume": fields}]. *)
Definition request (fields : dict) : value := VDict {["volume" := VDict fields]}.

(** [c] occurs in [s]. *)
Fixpoint has_char (c : ascii) (s : string) : bool :=
  match s with
  | EmptyString => false
  | String c' s' => Ascii.eqb c' c || has_char c s'
  end.

(** The identifier of a lookup in the image catalog. *)
Definition shown (ev : event) : option string :=
  match ev with
  | Ev c _ => match c with image_service_show image_id => Some image_id | _ => None end
  end.

(** The filters of a search of the image catalog. *)
Definition searched (ev : event) : option dict :=
  match ev with
  | Ev c _ => match c with image_service_detail filters => Some filters | _ => None end
  end.

(** The arguments of a call of the volume API's [update]. *)
Definition updated (ev : event) : option (value * dict) :=
  match ev with
  | Ev c _ => match c with volume_api_update volume fields => Some (volume, fields) | _ => None end
  end.

(** The allow-listed part of an update payload. *)
Definition allowed_fields (volume : dict) : dict :=
  filter (fun kv => kv.1 ∈ ["name"; "description"; "display_name";
                            "display_description"; "metadata"]) volume.

(** The message of the failed replication check. *)
Definition not_replicated (source_replica : value) : exn :=
  HTTPBadRequest (Msg "source volume id:%s is not replicated" (Some source_replica)).

(** The two messages of a refused update body. *)
Definition missing_body : exn := HTTPBadRequest (Msg "Missing request body" None).

Definition missing_element (name : string) : exn :=
  HTTPBadRequest
    (Msg "Missing required element '%s' in request body" (Some (VStr name))).

(** The calls of the image step: the extension manager and the image
    service. *)
Definition image_call {X} (c : call X) : bool :=
  match c with
  | ext_mgr_is_loaded _ | get_default_image_service
  | image_service_show _ | image_service_detail _ => true
  | _ => false
  end.

Definition image_event (ev : event) : bool :=
  match ev with Ev c _ => image_call c end.

(** The calls to the image service itself. *)
Definition image_service_event (ev : event) : bool :=
  match ev with
  | Ev c _ =>
      match c with
      | get_default_image_service | image_service_show _
      | image_service_detail _ => true
      | _ => false
      end
  end.

(** A stricter deployment: names that read bad are refused, a filter
    called bogus is refused, metadata is always too large to update, and
    the volume API lists V1 and R2. *)
Definition strict_script (X : Type) (c : call X) : option (exn + X) :=
  match c in call X return option (exn + X) with
  | validate_name_and_description fields =>
      if eq_str (get fields "name" VNone) "bad"
      then Some (inl (HTTPBadRequest (Msg "Name has invalid characters." None)))
      else None
  | check_volume_filters filters =>
      match filters !! "bogus" with
      | Some _ => Some (inl (HTTPBadRequest (Msg "Invalid filter keys: %s" (Some (VStr "bogus")))))
      | None => None
      end
  | volume_api_update _ _ =>
      Some (inl (InvalidVolumeMetadataSize (Msg "Metadata property too large." None)))
  | volume_api_get_all _ _ _ _ _ _ => Some (inr [volume_V1; volume_R2])
  | ext_mgr_is_loaded _ => Some (inr false)
  | c' => deployment_script _ c'
  end.

Definition strict : handler unit := answering strict_script.

(** Every call a program can make satisfies [P]. *)
Fixpoint only_calls {A} (P : forall X, call X -> bool) (p : prog A) : Prop :=
  match p with
  | Ret _ | Raise _ => True
  | Vis c k => P _ c = true ∧ ∀ r, only_calls P (k r)
  end.

(** The calls to the image service, as a predicate on calls. *)
Definition image_service_call {X} (c : call X) : bool :=
  match c with
  | get_default_image_service | image_service_show _
  | image_service_detail _ => true
  | _ => false
  end.

(** What the extension manager answered. *)
Definition loaded_reply (ev : event) : option (exn + bool) :=
  match ev with
  | Ev c r =>
      match c in call X return (exn + X) -> option (exn + bool) with
      | ext_mgr_is_loaded _ => fun r => Some r
      | _ => fun _ => None
      end r
  end.

(** ** Reading a listing *)

(** The arguments of a call of the volume API's [get_all]. *)
Definition queried (ev : event)
  : option (value * value * list value * list value * dict * value) :=
  match ev with
  | Ev c _ =>
      match c with
      | volume_api_get_all marker limit sort_keys sort_dirs filters offset =>
          Some (marker, limit, sort_keys, sort_dirs, filters, offset)
      | _ => None
      end
  end.

(** The view a call builds ([true] for the detailed one), the volumes it
    is built from and the reply. *)
Definition listed (ev : event) : option (bool * list value * (exn + value)) :=
  match ev with
  | Ev c r =>
      match c in call X return (exn + X) -> option (bool * list value * (exn + value)) with
      | view_builder_detail_list volumes => fun r => Some (true, volumes, r)
      | view_builder_summary_list volumes => fun r => Some (false, volumes, r)
      | _ => fun _ => None
      end r
  end.

(** The exception a call was answered with. *)
Definition failure (ev : event) : option exn :=
  match ev with
  | Ev _ (inl e) => Some e
  | Ev _ (inr _) => None
  end.

(** A call of the loop of lines 119-120. *)
Definition marking_event (ev : event) : bool :=
  match ev with
  | Ev c _ => match c with add_visible_admin_metadata _ => true | _ => false end
  end.

(** What the volume API's [get_all] answered. *)
Definition query_reply (ev : event) : option (exn + list value) :=
  match ev with
  | Ev c r =>
      match c in call X return (exn + X) -> option (exn + list value) with
      | volume_api_get_all _ _ _ _ _ _ => fun r => Some r
      | _ => fun _ => None
      end r
  end.

(** The calls that come before the query in a listing. *)
Definition before_query (ev : event) : bool :=
  match ev with
  | Ev c _ =>
      match c with
      | get_pagination_params _ | get_sort_params _
      | remove_invalid_filter_options _ _ | check_volume_filters _ => true
      | _ => false
      end
  end.

(** The view call of a listing. *)
Definition list_view (is_detail : bool) (volumes : list value) : call value :=
  if is_detail then view_builder_detail_list volumes
  else view_builder_summary_list volumes.

(** The trace of the loop of lines 119-120 over [volumes], and the
    volumes as the loop left them unless a call failed. *)
Inductive marked : list value -> list event -> exn + list value -> Prop :=
| marked_nil : marked [] [] (inr [])
| marked_failed volume volumes e :
    marked (volume :: volumes) [Ev (add_visible_admin_metadata volume) (inl e)] (inl e)
| marked_cons volume volume' volumes tr out :
    marked volumes tr out ->
    marked (volume :: volumes)
      (Ev (add_visible_admin_metadata volume) (inr volume') :: tr)
      (match out with
       | inl e => inl e
       | inr volumes' => inr (volume' :: volumes')
       end).

(** What follows a query that handed back [volumes]. *)
Inductive listing_tail (is_detail : bool) (volumes : list value)
    (tr : list event) (out : exn + value) : Prop :=
| tail_mark_failed e :
    marked volumes tr (inl e) -> out = inl e -> listing_tail is_detail volumes tr out
| tail_cache_failed marks volumes' e :
    marked volumes marks (inr volumes') ->
    tr = marks ++ [Ev (cache_db_volumes volumes') (inl e)] ->
    out = inl e ->
    listing_tail is_detail volumes tr out
| tail_viewed marks volumes' :
    marked volumes marks (inr volumes') ->
    tr = marks ++ [Ev (cache_db_volumes volumes') (inr ());
                   Ev (list_view is_detail volumes') out] ->
    listing_tail is_detail volumes tr out.

(** The two shapes of a listing: it is refused before the volume API is
    queried, or the query is made with the aliased sort keys and filters. *)
Inductive listing_run (allowed : list string) (params : dict) (is_detail : bool)
    (tr : list event) (out : exn + value) : Prop :=
| listing_refused e :
    out = inl e ->
    Forall (fun ev => before_query ev = true) tr ->
    (∀ ev e', In ev tr -> failure ev = Some e' -> e' = e) ->
    listing_run allowed params is_detail tr out
| listing_queried marker limit offset params1 sort_keys sort_dirs params2
    stripped found rest :
    tr = [Ev (get_pagination_params params) (inr (marker, limit, offset, params1));
          Ev (get_sort_params params1) (inr (sort_keys, sort_dirs, params2));
          Ev (remove_invalid_filter_options (delete "glance_metadata" params2) allowed)
            (inr stripped);
          Ev (check_volume_filters (alias_filters stripped)) (inr ());
          Ev (volume_api_get_all marker limit (alias_sort_keys sort_keys) sort_dirs
                (alias_filters stripped) offset) found]
         ++ rest ->
    match found with
    | inl e => rest = [] ∧ out = inl e
    | inr volumes => listing_tail is_detail volumes rest out
    end ->
    listing_run allowed params is_detail tr out.

(** The calls of the guarded block of lines 324-330. *)
Definition guarded_call {X} (c : call X) : bool :=
  match c with
  | volume_api_get _ | volume_api_update _ _ => true
  | notify_about_volume_usage _ event_suffix => String.eqb event_suffix "update.start"
  | _ => false
  end.

Definition guarded (ev : event) : bool :=
  match ev with Ev c _ => guarded_call c end.

(** What the handler of lines 329-330 makes of an exception. *)
Definition too_large (e : exn) : exn :=
  match e with
  | InvalidVolumeMetadataSize msg => HTTPRequestEntityTooLarge msg
  | _ => e
  end.

(** A failed call ends the program at once, in the exception [conv] makes
    of the call's own. *)
Fixpoint stops_on_failure {A} (conv : forall X, call X -> exn -> exn) (p : prog A) : Prop :=
  match p with
  | Ret _ | Raise _ => True
  | Vis c k =>
      (∀ e, k (inl e) = Raise (conv _ c e)) ∧
      ∀ x, stops_on_failure conv (k (inr x))
  end.

(** The record a view was built for, and the view. *)
Definition viewed_record (ev : event) : option (value * (exn + value)) :=
  match ev with
  | Ev c r =>
      match c in call X return (exn + X) -> option (value * (exn + value)) with
      | view_builder_detail volume => fun r => Some (volume, r)
      | _ => fun _ => None
      end r
  end.

(** ** [show] and [delete] *)

(** The operations on one volume have collaborators of their own: the
    lookup with and without [viewable_admin_meta], the cache of one
    record, the parser of a boolean parameter and the volume API's
    [delete].  Their programs are built as the ones above.
    [add_visible_admin_metadata] hands back the record as it left it. *)
Module Lifecycle.

Inductive call : Type -> Type :=
| volume_api_get (id : value) (viewable_admin_meta : option bool) : call value
| cache_db_volume (volume : value) : call unit
| add_visible_admin_metadata (volume : value) : call value
| view_builder_detail (volume : value) : call value
| get_bool_param (param_string : string) (params : dict) : call bool
| volume_api_delete (volume : value) (cascade : bool) : call unit.

Inductive prog (A : Type) : Type :=
| Ret (a : A)
| Raise (e : exn)
| Vis {X : Type} (c : call X) (k : exn + X -> prog A).

Arguments Ret {A} a.
Arguments Raise {A} e.
Arguments Vis {A X} c k.

Fixpoint bind {A B} (p : prog A) (f : A -> prog B) : prog B :=
  match p with
  | Ret a => f a
  | Raise e => Raise e
  | Vis c k => Vis c (fun r => bind (k r) f)
  end.

Definition perform {X} (c : call X) : prog X :=
  Vis c (fun r => match r with inl e => Raise e | inr x => Ret x end).

Inductive event : Type :=
| Ev (X : Type) (c : call X) (r : exn + X).

Arguments Ev {X} c r.

Definition handler (St : Type) : Type := forall X, call X -> St -> (exn + X) * St.

Fixpoint run {A St} (h : handler St) (p : prog A) (s : St)
  : list event * (exn + A) * St :=
  match p with
  | Ret a => ([], inr a, s)
  | Raise e => ([], inl e, s)
  | Vis c k =>
      let '(r, s1) := h _ c s in
      let '(tr, out, s2) := run h (k r) s1 in
      (Ev c r :: tr, out, s2)
  end.

(** [webob.Response(status_int=...)] *)
Inductive response : Type :=
| Response (status_int : Z).

(** Lines 53-63 *)
Definition show (id : value) : prog value :=
  bind (perform (volume_api_get id (Some true))) (fun vol =>
  bind (perform (cache_db_volume vol)) (fun _ =>
  bind (perform (add_visible_admin_metadata vol)) (fun vol =>
  perform (view_builder_detail vol)))).

(** Lines 65-76 *)
Definition delete (id : value) (req_params : dict) : prog response :=
  bind (perform (get_bool_param "cascade" req_params)) (fun cascade =>
  bind (perform (volume_api_get id None)) (fun volume =>
  bind (perform (volume_api_delete volume cascade)) (fun _ =>
  Ret (Response 202)))).

(** The exception a call was answered with. *)
Definition failure (ev : event) : option exn :=
  match ev with
  | Ev _ (inl e) => Some e
  | Ev _ (inr _) => None
  end.

(** The arguments and the reply of a call of the volume API's [delete]. *)
Definition deleted (ev : event) : option (value * bool * (exn + unit)) :=
  match ev with
  | Ev c r =>
      match c in call X return (exn + X) -> option (value * bool * (exn + unit)) with
      | volume_api_delete volume cascade => fun r => Some (volume, cascade, r)
      | _ => fun _ => None
      end r
  end.

(** Collaborators that know the volume V1 and no other. *)
Definition catalogue : handler unit :=
  fun X c s =>
    (match c in call X return exn + X with
     | volume_api_get id _ =>
         if eq_str id "V1" then inr volume_V1
         else inl (not_found "Volume %s could not be found." id)
     | cache_db_volume _ => inr ()
     | add_visible_admin_metadata volume => inr volume
     | view_builder_detail volume => inr volume
     | get_bool_param param_string params =>
         inr (eq_str (get params param_string VNone) "true")
     | volume_api_delete _ _ => inr ()
     end, s).

End Lifecycle.

(** * Properties *)

Section Traces.

Context {St : Type} (h : handler St).

Lemma run_exec {A} (p : prog A) s tr out s' :
  run h p s = (tr, out, s') -> exec p tr out.
Proof.
  revert s tr out s'. induction p as [a|e|X c k IH]; intros s tr out s' Hrun.
  - simpl in Hrun. by inversion Hrun.
  - simpl in Hrun. by inversion Hrun.
  - simpl in Hrun. destruct (h X c s) as [r s1] eqn:Hh.
    destruct (run h (k r) s1) as [[tr1 out1] s2] eqn:Hk.
    inversion Hrun; subst. simpl. exists r, tr1. split; [done|]. by eapply IH.
Qed.

Lemma run_bind {A B} (p : prog A) (f : A -> prog B) s :
  run h (p ≫= f) s =
    let '(tr1, out1, s1) := run h p s in
    match out1 with
    | inl e => (tr1, inl e, s1)
    | inr a => let '(tr2, out2, s2) := run h (f a) s1 in (tr1 ++ tr2, out2, s2)
    end.
Proof.
  unfold mbind, prog_bind. revert s.
  induction p as [a|e|X c k IH]; intros s; simpl.
  - by destruct (run h (f a) s) as [[tr2 out2] s2].
  - done.
  - destruct (h X c s) as [r s1]. rewrite IH.
    destruct (run h (k r) s1) as [[tr1 [e|a]] s2]; [done|].
    by destruct (run h (f a) s2) as [[tr2 out2] s3].
Qed.

Lemma run_try_except {A} (p : prog A) (f : exn -> prog A) s :
  run h (try_except p f) s =
    let '(tr1, out1, s1) := run h p s in
    match out1 with
    | inl e => let '(tr2, out2, s2) := run h (f e) s1 in (tr1 ++ tr2, out2, s2)
    | inr a => (tr1, inr a, s1)
    end.
Proof.
  revert s. induction p as [a|e|X c k IH]; intros s; simpl.
  - done.
  - by destruct (run h (f e) s) as [[tr2 out2] s2].
  - destruct (h X c s) as [r s1]. rewrite IH.
    destruct (run h (k r) s1) as [[tr1 [e|a]] s2]; [|done].
    by destruct (run h (f e) s2) as [[tr2 out2] s3].
Qed.

Lemma run_perform {X} (c : call X) s :
  run h (perform c) s = let '(r, s1) := h _ c s in ([Ev c r], r, s1).
Proof. simpl. destruct (h X c s) as [[e|x] s1]; done. Qed.

Lemma run_lift {A} (r : exn + A) s : run h (lift r) s = ([], r, s).
Proof. by destruct r. Qed.

End Traces.

Lemma exec_bind {A B} (p : prog A) (f : A -> prog B) tr out :
  exec (p ≫= f) tr out ->
  (∃ e, out = inl e ∧ exec p tr (inl e)) ∨
  (∃ a tr1 tr2, tr = tr1 ++ tr2 ∧ exec p tr1 (inr a) ∧ exec (f a) tr2 out).
Proof.
  unfold mbind, prog_bind. revert tr.
  induction p as [a|e|X c k IH]; intros tr H; simpl in H.
  - right. exists a, [], tr. by simpl.
  - left. destruct H as [-> ->]. exists e. by simpl.
  - destruct H as (r & tr' & -> & H). apply IH in H as [(e & -> & H)|(a & t1 & t2 & -> & H1 & H2)].
    + left. exists e. split; [done|]. simpl. eauto.
    + right. exists a, (Ev c r :: t1), t2. simpl. eauto 6.
Qed.

Lemma exec_lift {A} (r : exn + A) tr out :
  exec (lift r) tr out -> tr = [] ∧ out = r.
Proof. destruct r; simpl; naive_solver. Qed.

Lemma exec_perform {X} (c : call X) tr out :
  exec (perform c) tr out -> tr = [Ev c out].
Proof.
  simpl. intros (r & tr' & -> & H). apply exec_lift in H as [-> ->]. done.
Qed.

(** ** The field normalizer *)

Section Normalizer.

Lemma rename_alias_gone a c (m : dict) : a ≠ c -> rename a c m !! a = None.
Proof.
  intros Hac. unfold rename. destruct (m !! a) eqn:Hm; [|done].
  rewrite lookup_insert_ne by done. apply lookup_delete_eq.
Qed.

Lemma rename_other a c k (m : dict) :
  k ≠ a -> k ≠ c -> rename a c m !! k = m !! k.
Proof.
  intros Ha Hc. unfold rename. destruct (m !! a); [|done].
  rewrite lookup_insert_ne by done. by rewrite lookup_delete_ne.
Qed.

Lemma rename_absent a c (m : dict) : m !! a = None -> rename a c m = m.
Proof. intros H. unfold rename. by rewrite H. Qed.

Lemma rename_del_alias_gone a c (m : dict) : rename_del a c m !! a = None.
Proof.
  unfold rename_del. destruct (m !! a) eqn:Hm; [|done]. apply lookup_delete_eq.
Qed.

Lemma rename_del_other a c k (m : dict) :
  k ≠ a -> k ≠ c -> rename_del a c m !! k = m !! k.
Proof.
  intros Ha Hc. unfold rename_del. destruct (m !! a); [|done].
  rewrite lookup_delete_ne by done. by rewrite lookup_insert_ne.
Qed.

Lemma rename_del_absent a c (m : dict) : m !! a = None -> rename_del a c m = m.
Proof. intros H. unfold rename_del. by rewrite H. Qed.

(** The normalizer reads and writes six keys; every other key keeps its
    value. *)
Lemma normalize_other k (m : dict) :
  k ∉ ["name"; "display_name"; "description"; "display_description";
       "image_id"; "imageRef"] ->
  normalize m !! k = m !! k.
Proof.
  intros Hk. unfold normalize.
  rewrite rename_del_other, !rename_other; try done;
    intros ->; apply Hk; set_solver.
Qed.

Lemma get_normalize k (m : dict) default :
  k ∉ ["name"; "display_name"; "description"; "display_description";
       "image_id"; "imageRef"] ->
  get (normalize m) k default = get m k default.
Proof. intros Hk. unfold get. by rewrite normalize_other. Qed.

Lemma normalize_aliases_gone (m : dict) :
  normalize m !! "name" = None ∧
  normalize m !! "description" = None ∧
  normalize m !! "image_id" = None.
Proof.
  unfold normalize. split_and!.
  - rewrite rename_del_other, rename_other by done. by apply rename_alias_gone.
  - rewrite rename_del_other by done. by apply rename_alias_gone.
  - apply rename_del_alias_gone.
Qed.

End Normalizer.

(** ** Auxiliary calls leave a clean trace *)

Lemma aux_event_clean ev : aux_event ev = true -> clean ev = true.
Proof. destruct ev as [X c r]. by destruct c. Qed.

Lemma aux_event_lookup ev : aux_event ev = true -> lookup_of ev = None.
Proof. destruct ev as [X c r]. by destruct c. Qed.

Lemma aux_event_dispatched ev : aux_event ev = true -> dispatched ev = None.
Proof. destruct ev as [X c r]. by destruct c. Qed.

Lemma clean_dispatched ev : clean ev = true -> dispatched ev = None.
Proof. unfold clean. by destruct (dispatched ev). Qed.

Lemma only_auxiliary_events {A} (p : prog A) tr out :
  only_auxiliary p -> exec p tr out -> Forall (fun ev => aux_event ev = true) tr.
Proof.
  revert tr. induction p as [a|e|X c k IH]; intros tr Hp H; simpl in *.
  - destruct H as [-> _]. constructor.
  - destruct H as [-> _]. constructor.
  - destruct Hp as [Hc Hk]. destruct H as (r & tr' & -> & H).
    constructor; [done|]. by eapply IH.
Qed.

Lemma only_auxiliary_bind {A B} (p : prog A) (f : A -> prog B) :
  only_auxiliary p -> (∀ a, only_auxiliary (f a)) -> only_auxiliary (p ≫= f).
Proof.
  unfold mbind, prog_bind. intros Hp Hf.
  induction p as [a|e|X c k IH]; simpl in *; [done|done|].
  destruct Hp as [Hc Hk]. split; [done|]. intros r. by apply IH.
Qed.

Lemma only_auxiliary_try {A} (p : prog A) (f : exn -> prog A) :
  only_auxiliary p -> (∀ e, only_auxiliary (f e)) -> only_auxiliary (try_except p f).
Proof.
  intros Hp Hf. induction p as [a|e|X c k IH]; simpl in *; [done|done|].
  destruct Hp as [Hc Hk]. split; [done|]. intros r. by apply IH.
Qed.

Lemma only_auxiliary_lift {A} (r : exn + A) : only_auxiliary (lift r).
Proof. by destruct r. Qed.

Lemma only_auxiliary_fmap {A B} (g : A -> B) (p : prog A) :
  only_auxiliary p -> only_auxiliary (g <$> p).
Proof. intros Hp. by apply (only_auxiliary_bind p (fun a => Ret (g a))). Qed.

Lemma only_auxiliary_perform {X} (c : call X) :
  auxiliary c = true -> only_auxiliary (perform c).
Proof. intros Hc. simpl. split; [done|]. intros r. apply only_auxiliary_lift. Qed.

Ltac aux_step :=
  first
    [ apply only_auxiliary_lift
    | apply only_auxiliary_perform; reflexivity
    | apply only_auxiliary_fmap
    | apply only_auxiliary_bind; [|intros ?]
    | apply only_auxiliary_try; [|intros ?]
    | exact I
    | case_match ].

Section ImageResolver.

Variable is_uuid_like : value -> bool.

Lemma lookup_by_id_auxiliary image_uuid :
  only_auxiliary (lookup_by_id is_uuid_like image_uuid).
Proof. unfold lookup_by_id. repeat aux_step. Qed.

Lemma lookup_by_name_auxiliary image_ref : only_auxiliary (lookup_by_name image_ref).
Proof. unfold lookup_by_name. repeat aux_step. Qed.

Lemma image_uuid_from_ref_auxiliary image_ref :
  only_auxiliary (_image_uuid_from_ref is_uuid_like image_ref).
Proof.
  unfold _image_uuid_from_ref.
  repeat first [ apply lookup_by_id_auxiliary | apply lookup_by_name_auxiliary | aux_step ].
Qed.

Lemma resolve_image_auxiliary volume kwargs :
  only_auxiliary (resolve_image is_uuid_like volume kwargs).
Proof.
  unfold resolve_image. repeat first [ apply image_uuid_from_ref_auxiliary | aux_step ].
Qed.

End ImageResolver.

(** ** The resolution steps of [create] *)

Ltac exec_inv :=
  repeat match goal with
    | H : exec (_ ≫= _) _ _ |- _ =>
        apply exec_bind in H as [(? & ? & H)|(? & ? & ? & ? & ? & H)]
    | H : exec (perform _) _ _ |- _ => apply exec_perform in H
    | H : exec (lift _) _ _ |- _ => apply exec_lift in H as [? ?]
    | H : exec (mret _) _ _ |- _ => destruct H as [? ?]
    | H : exec (Ret _) _ _ |- _ => destruct H as [? ?]
    | H : exec (Raise _) _ _ |- _ => destruct H as [? ?]
    | _ => progress simplify_eq
    end.

Section Steps.

Variable is_uuid_like : value -> bool.

Lemma exec_resolve_snapshot volume kwargs tr out :
  exec (resolve_snapshot volume kwargs) tr out ->
  let snapshot_id := get volume "snapshot_id" VNone in
  if is_None snapshot_id then tr = [] ∧ out = inr (<["snapshot" := VNone]> kwargs)
  else ∃ r, tr = [Ev (get_snapshot snapshot_id) r] ∧
            out = match r with
                  | inl e => inl e
                  | inr snapshot => inr (<["snapshot" := snapshot]> kwargs)
                  end.
Proof.
  unfold resolve_snapshot. intros H. simpl.
  destruct (is_None (get volume "snapshot_id" VNone)); simpl in H.
  - by destruct H.
  - destruct H as (r & tr' & -> & H). exists r. destruct r; simpl in H; by destruct H as [-> ->].
Qed.

Lemma exec_resolve_source_volume volume kwargs tr out :
  exec (resolve_source_volume volume kwargs) tr out ->
  let source_volid := get volume "source_volid" VNone in
  if is_None source_volid then
    tr = [] ∧ out = inr (<["source_volume" := VNone]> kwargs)
  else ∃ r, tr = [Ev (get_volume source_volid) r] ∧ out = store "source_volume" kwargs r.
Proof.
  unfold resolve_source_volume. intros H. simpl.
  destruct (is_None (get volume "source_volid" VNone)); simpl in H.
  - by destruct H.
  - destruct H as (r & tr' & -> & H). exists r. destruct r; simpl in H; by destruct H as [-> ->].
Qed.

Lemma exec_resolve_consistencygroup volume kwargs tr out :
  exec (resolve_consistencygroup volume kwargs) tr out ->
  let consistencygroup_id := get volume "consistencygroup_id" VNone in
  if is_None consistencygroup_id then
    tr = [] ∧ out = inr (<["consistencygroup" := VNone]> kwargs)
  else ∃ r, tr = [Ev (consistencygroup_get consistencygroup_id) r] ∧
            out = store "consistencygroup" kwargs r.
Proof.
  unfold resolve_consistencygroup. intros H. simpl.
  destruct (is_None (get volume "consistencygroup_id" VNone)); simpl in H.
  - by destruct H.
  - destruct H as (r & tr' & -> & H). exists r. destruct r; simpl in H; by destruct H as [-> ->].
Qed.

Lemma exec_resolve_volume_type volume kwargs tr out :
  exec (resolve_volume_type is_uuid_like volume kwargs) tr out ->
  let req_volume_type := get volume "volume_type" VNone in
  if truthy req_volume_type then
    ∃ r, tr = [Ev (volume_type_lookup is_uuid_like req_volume_type) r] ∧
         out = store "volume_type" kwargs r
  else tr = [] ∧ out = inr kwargs.
Proof.
  unfold resolve_volume_type, volume_type_lookup. intros H. simpl.
  destruct (truthy (get volume "volume_type" VNone)); [|by destruct H].
  destruct (is_uuid_like (get volume "volume_type" VNone)); simpl in H;
    destruct H as (r & tr' & -> & H); exists r;
    destruct r; simpl in H; by destruct H as [-> ->].
Qed.

(** The source-replica step: the lookup, then the replication check. *)
Lemma exec_resolve_source_replica volume kwargs tr out :
  exec (resolve_source_replica volume kwargs) tr out ->
  let source_replica := get volume "source_replica" VNone in
  if is_None source_replica then
    tr = [] ∧ out = inr (<["source_replica" := VNone]> kwargs)
  else
    ∃ r, tr = [Ev (get_volume source_replica) r] ∧
         out = match r with
               | inl e => inl e
               | inr src_vol =>
                   match subscript src_vol "replication_status" with
                   | inl e => inl e
                   | inr status =>
                       if eq_str status "disabled" then
                         inl (HTTPBadRequest
                                (Msg "source volume id:%s is not replicated"
                                     (Some source_replica)))
                       else inr (<["source_replica" := src_vol]> kwargs)
                   end
               end.
Proof.
  unfold resolve_source_replica. intros H. simpl.
  destruct (is_None (get volume "source_replica" VNone)); simpl in H.
  - by destruct H.
  - destruct H as (r & tr' & -> & H). exists r.
    destruct r as [e|src_vol]; simpl in H; [by destruct H as [-> ->]|].
    destruct (subscript src_vol "replication_status") as [e|status]; simpl in H;
      [by destruct H as [-> ->]|].
    destruct (eq_str status "disabled"); simpl in H; by destruct H as [-> ->].
Qed.

(** The size step is pure, and follows the priority order. *)
Lemma derive_size_by_priority volume kwargs snapshot source_volume source_replica :
  kwargs !! "snapshot" = Some snapshot ->
  kwargs !! "source_volume" = Some source_volume ->
  kwargs !! "source_replica" = Some source_replica ->
  derive_size volume kwargs =
    lift (size_by_priority (get volume "size" VNone)
            snapshot source_volume source_replica).
Proof.
  intros Hs Hv Hr. unfold derive_size, size_by_priority, resolved, and_then.
  destruct (is_None (get volume "size" VNone)) eqn:Hsize; simpl; [|done].
  rewrite Hs. simpl. destruct (is_None snapshot); simpl; [|by destruct (subscript _ _)].
  rewrite Hv. simpl. destruct (is_None source_volume); simpl; [|by destruct (subscript _ _)].
  rewrite Hr. simpl. destruct (is_None source_replica); simpl; [|by destruct (subscript _ _)].
  by destruct (get volume "size" VNone).
Qed.

End Steps.

(** ** Failed runs *)

Lemma failed_app pre tr e :
  Forall (fun ev => clean ev = true) pre -> failed tr e -> failed (pre ++ tr) e.
Proof.
  intros Hpre [Hd Hl]. split.
  - apply Forall_app. split; [|done].
    eapply Forall_impl; [exact Hpre|]. intros ev. apply clean_dispatched.
  - intros ev k v e' Hin Hev. apply in_app_or in Hin as [Hin|Hin].
    + rewrite Forall_forall in Hpre. apply list_elem_of_In, Hpre in Hin.
      unfold clean in Hin. rewrite Hev in Hin. by destruct (dispatched ev).
    + by eapply Hl.
Qed.

Lemma failed_aux tr e : Forall (fun ev => aux_event ev = true) tr -> failed tr e.
Proof.
  intros Haux. split.
  - eapply Forall_impl; [exact Haux|]. intros ev. apply aux_event_dispatched.
  - intros ev k v e' Hin Hev. rewrite Forall_forall in Haux.
    apply list_elem_of_In, Haux, aux_event_lookup in Hin. congruence.
Qed.

Lemma failed_last (c : call value) e :
  dispatched (Ev c (inl e)) = None -> failed [Ev c (inl e)] e.
Proof.
  intros Hc. split; [by repeat constructor|].
  intros ev k v e' [<-|[]] Hev. destruct c; simpl in Hev; by simplify_eq.
Qed.

Lemma failed_clean tr e : Forall (fun ev => clean ev = true) tr -> failed tr e.
Proof.
  intros Hc. rewrite <- (app_nil_r tr). apply failed_app; [done|].
  split; [constructor|]. by intros ev k v e' [].
Qed.

Lemma looked_up_clean present c handle :
  auxiliary c = false -> dispatched (Ev c (inr handle)) = None ->
  Forall (fun ev => clean ev = true) (looked_up present c handle).
Proof.
  intros Hc Hd. destruct present; simpl; [|constructor].
  repeat constructor. destruct c; by simplify_eq.
Qed.

Lemma in_clean ev tr :
  In ev tr -> Forall (fun ev => clean ev = true) tr -> dispatched ev = None.
Proof.
  intros Hin Hc. rewrite Forall_forall in Hc.
  by apply clean_dispatched, Hc, list_elem_of_In.
Qed.

Lemma volume_type_lookup_clean is_uuid_like present ref t :
  Forall (fun ev => clean ev = true)
    (looked_up present (volume_type_lookup is_uuid_like ref) t).
Proof.
  apply looked_up_clean; unfold volume_type_lookup; by destruct (is_uuid_like ref).
Qed.

Ltac clean_piece :=
  first
    [ assumption
    | apply volume_type_lookup_clean
    | by apply looked_up_clean
    | eapply Forall_impl; [eassumption|]; intros ?; apply aux_event_clean
    | by repeat constructor ].

(** ** The steps, by outcome *)

Section StepOutcomes.

Variable is_uuid_like : value -> bool.

Lemma resolve_volume_type_ok volume kwargs tr kw :
  exec (resolve_volume_type is_uuid_like volume kwargs) tr (inr kw) ->
  let ref := get volume "volume_type" VNone in
  ∃ t, tr = looked_up (truthy ref) (volume_type_lookup is_uuid_like ref) t ∧
       kw = if truthy ref then <["volume_type" := t]> kwargs else kwargs.
Proof.
  intros H. apply exec_resolve_volume_type in H. simpl in *.
  destruct (truthy (get volume "volume_type" VNone)).
  - destruct H as ([e|t] & -> & Hout); simplify_eq/=. by exists t.
  - destruct H as [-> Hout]. simplify_eq. by exists VNone.
Qed.

Lemma resolve_volume_type_err volume kwargs tr e :
  exec (resolve_volume_type is_uuid_like volume kwargs) tr (inl e) -> failed tr e.
Proof.
  intros H. apply exec_resolve_volume_type in H. simpl in *.
  destruct (truthy (get volume "volume_type" VNone)); [|by destruct H].
  destruct H as ([e'|t] & -> & Hout); simplify_eq/=.
  apply failed_last. unfold volume_type_lookup. by destruct (is_uuid_like _).
Qed.

Lemma resolve_snapshot_ok volume kwargs tr kw :
  exec (resolve_snapshot volume kwargs) tr (inr kw) ->
  let ref := get volume "snapshot_id" VNone in
  ∃ snapshot, tr = looked_up (negb (is_None ref)) (get_snapshot ref) snapshot ∧
              kw = <["snapshot" := snapshot]> kwargs ∧
              (is_None ref = true -> snapshot = VNone).
Proof.
  intros H. apply exec_resolve_snapshot in H. simpl in *.
  destruct (is_None (get volume "snapshot_id" VNone)).
  - destruct H as [-> Hout]. simplify_eq. by exists VNone.
  - destruct H as ([e|t] & -> & Hout); simplify_eq/=. by exists t.
Qed.

Lemma resolve_snapshot_err volume kwargs tr e :
  exec (resolve_snapshot volume kwargs) tr (inl e) -> failed tr e.
Proof.
  intros H. apply exec_resolve_snapshot in H. simpl in *.
  destruct (is_None (get volume "snapshot_id" VNone)); [by destruct H|].
  destruct H as ([e'|t] & -> & Hout); simplify_eq/=. by apply failed_last.
Qed.

Lemma resolve_source_volume_ok volume kwargs tr kw :
  exec (resolve_source_volume volume kwargs) tr (inr kw) ->
  let ref := get volume "source_volid" VNone in
  ∃ source_volume,
    tr = looked_up (negb (is_None ref)) (get_volume ref) source_volume ∧
    kw = <["source_volume" := source_volume]> kwargs ∧
    (is_None ref = true -> source_volume = VNone).
Proof.
  intros H. apply exec_resolve_source_volume in H. simpl in *.
  destruct (is_None (get volume "source_volid" VNone)).
  - destruct H as [-> Hout]. simplify_eq. by exists VNone.
  - destruct H as ([e|t] & -> & Hout); simplify_eq/=. by exists t.
Qed.

Lemma resolve_source_volume_err volume kwargs tr e :
  exec (resolve_source_volume volume kwargs) tr (inl e) -> failed tr e.
Proof.
  intros H. apply exec_resolve_source_volume in H. simpl in *.
  destruct (is_None (get volume "source_volid" VNone)); [by destruct H|].
  destruct H as ([e'|t] & -> & Hout); simplify_eq/=. by apply failed_last.
Qed.

Lemma resolve_source_replica_ok volume kwargs tr kw :
  exec (resolve_source_replica volume kwargs) tr (inr kw) ->
  let ref := get volume "source_replica" VNone in
  ∃ src_vol,
    tr = looked_up (negb (is_None ref)) (get_volume ref) src_vol ∧
    kw = <["source_replica" := src_vol]> kwargs ∧
    (if is_None ref then src_vol = VNone else replicated src_vol).
Proof.
  intros H. apply exec_resolve_source_replica in H. simpl in *.
  destruct (is_None (get volume "source_replica" VNone)).
  - destruct H as [-> Hout]. simplify_eq. by exists VNone.
  - destruct H as ([e|src_vol] & -> & Hout); simplify_eq/=.
    destruct (subscript src_vol "replication_status") as [e|status] eqn:Hst;
      simplify_eq/=.
    destruct (eq_str status "disabled") eqn:Hd; simplify_eq/=.
    exists src_vol. split_and!; [done|done|]. by exists status.
Qed.

Lemma resolve_source_replica_err volume kwargs tr e :
  exec (resolve_source_replica volume kwargs) tr (inl e) -> failed tr e.
Proof.
  intros H. apply exec_resolve_source_replica in H. simpl in *.
  destruct (is_None (get volume "source_replica" VNone)); [by destruct H|].
  destruct H as ([e'|src_vol] & -> & Hout); simplify_eq/=.
  - by apply failed_last.
  - apply failed_clean. by repeat constructor.
Qed.

Lemma resolve_consistencygroup_ok volume kwargs tr kw :
  exec (resolve_consistencygroup volume kwargs) tr (inr kw) ->
  let ref := get volume "consistencygroup_id" VNone in
  ∃ group, tr = looked_up (negb (is_None ref)) (consistencygroup_get ref) group ∧
           kw = <["consistencygroup" := group]> kwargs ∧
           (is_None ref = true -> group = VNone).
Proof.
  intros H. apply exec_resolve_consistencygroup in H. simpl in *.
  destruct (is_None (get volume "consistencygroup_id" VNone)).
  - destruct H as [-> Hout]. simplify_eq. by exists VNone.
  - destruct H as ([e|t] & -> & Hout); simplify_eq/=. by exists t.
Qed.

Lemma resolve_consistencygroup_err volume kwargs tr e :
  exec (resolve_consistencygroup volume kwargs) tr (inl e) -> failed tr e.
Proof.
  intros H. apply exec_resolve_consistencygroup in H. simpl in *.
  destruct (is_None (get volume "consistencygroup_id" VNone)); [by destruct H|].
  destruct H as ([e'|t] & -> & Hout); simplify_eq/=. by apply failed_last.
Qed.

Lemma resolve_image_ok volume kwargs tr kw :
  exec (resolve_image is_uuid_like volume kwargs) tr (inr kw) ->
  Forall (fun ev => aux_event ev = true) tr ∧
  ∃ image_id, kw = match image_id with
                   | Some u => <["image_id" := u]> kwargs
                   | None => kwargs
                   end.
Proof.
  intros H. split.
  { eapply only_auxiliary_events; [apply resolve_image_auxiliary|exact H]. }
  unfold resolve_image in H.
  apply exec_bind in H as [(e & ? & H)|(loaded & t1 & t2 & -> & H1 & H)]; [done|].
  destruct loaded; [|exec_inv; by exists None].
  destruct (negb (is_None (get volume "imageRef" VNone))); [|exec_inv; by exists None].
  apply exec_bind in H as [(e & ? & H)|(u & t3 & t4 & -> & H3 & H)]; [done|].
  exec_inv. by exists (Some u).
Qed.

End StepOutcomes.

(** ** Every run of [create] has one of the two shapes *)

Section CreateRuns.

Variable is_uuid_like : value -> bool.

Ltac fail_with lem :=
  eapply create_failed; [done|];
  repeat match goal with
    | |- failed (_ ++ _) _ => apply failed_app; [clean_piece|]
    end;
  first [ by eapply lem | apply lem; by repeat constructor ].

Lemma exec_create body tr out :
  exec (create is_uuid_like body) tr out -> create_run is_uuid_like body tr out.
Proof.
  unfold create. intros H.
  apply exec_bind in H as [(e & -> & H)|([] & t0 & tr0 & -> & H0 & H)].
  { apply exec_perform in H as ->. fail_with failed_aux. }
  apply exec_perform in H0 as ->.
  apply exec_bind in H as [(e & -> & H)|(raw & t1 & tr1 & -> & H1 & H)].
  { apply exec_lift in H as [-> _]. fail_with failed_aux. }
  apply exec_lift in H1 as [-> Hraw].
  apply exec_bind in H as [(e & -> & H)|([] & t2 & tr2 & -> & H2 & H)].
  { apply exec_perform in H as ->. fail_with failed_aux. }
  apply exec_perform in H2 as ->.
  set (volume := normalize raw) in *.
  apply exec_bind in H as [(e & -> & H)|(kw1 & t3 & tr3 & -> & H3 & H)].
  { fail_with resolve_volume_type_err. }
  apply resolve_volume_type_ok in H3 as (t & -> & ->).
  apply exec_bind in H as [(e & -> & H)|(kw2 & t4 & tr4 & -> & H4 & H)].
  { fail_with resolve_snapshot_err. }
  apply resolve_snapshot_ok in H4 as (snapshot & -> & -> & Hsnap).
  apply exec_bind in H as [(e & -> & H)|(kw3 & t5 & tr5 & -> & H5 & H)].
  { fail_with resolve_source_volume_err. }
  apply resolve_source_volume_ok in H5 as (source_volume & -> & -> & Hvol).
  apply exec_bind in H as [(e & -> & H)|(kw4 & t6 & tr6 & -> & H6 & H)].
  { fail_with resolve_source_replica_err. }
  apply resolve_source_replica_ok in H6 as (source_replica & -> & -> & Hrep).
  apply exec_bind in H as [(e & -> & H)|(kw5 & t7 & tr7 & -> & H7 & H)].
  { fail_with resolve_consistencygroup_err. }
  apply resolve_consistencygroup_ok in H7 as (group & -> & -> & Hgroup).
  apply exec_bind in H as [(e & -> & H)|(size & t8 & tr8 & -> & H8 & H)].
  { erewrite derive_size_by_priority in H by (by simplify_map_eq).
    apply exec_lift in H as [-> _]. fail_with failed_aux. }
  erewrite derive_size_by_priority in H8 by (by simplify_map_eq).
  apply exec_lift in H8 as [-> Hsize].
  apply exec_bind in H as [(e & -> & H)|(kw6 & t9 & tr9 & -> & H9 & H)].
  { apply (only_auxiliary_events _ _ _ (resolve_image_auxiliary _ _ _)) in H.
    fail_with failed_aux. }
  apply resolve_image_ok in H9 as (Himg & image_id & ->).
  apply exec_bind in H as [(e & -> & H)|(new_volume & t10 & tr10 & -> & H10 & H)].
  - apply exec_perform in H as ->.
    eapply (create_dispatched _ _ _ _ raw t snapshot source_volume source_replica group
              t9 image_id size (inl e) []); try done.
    simpl. unfold assembled. fold volume.
    by destruct (truthy (get volume "volume_type" VNone)).
  - apply exec_perform in H10 as ->. apply exec_perform in H as ->.
    eapply (create_dispatched _ _ _ _ raw t snapshot source_volume source_replica group
              t9 image_id size (inr new_volume) _); try done.
    simpl. unfold assembled. fold volume.
    by destruct (truthy (get volume "volume_type" VNone)).
Qed.

End CreateRuns.

(** ** The image identity resolver, run *)

Section ImageRuns.

Variable is_uuid_like : value -> bool.
Context {St : Type} (h : handler St).

Lemma run_name_search image_ref s :
  run h (by_name ← lookup_by_name image_ref;
         match by_name with
         | Some id => mret id
         | None => Raise invalid_image_identifier
         end) s =
    name_search h image_ref [] s.
Proof.
  unfold lookup_by_name, name_search. simpl.
  destruct (h _ (image_service_detail {["name" := image_ref]}) s) as [[e|images] s'].
  - by destruct e.
  - destruct images as [|img [|img' images]]; simpl; [done| |done].
    unfold subscript. destruct img as [| | | | |d]; try done. by destruct (d !! "id").
Qed.

Lemma run_lookup_by_id image_uuid s :
  run h (lookup_by_id is_uuid_like image_uuid) s =
    if is_uuid_like (VStr image_uuid) then
      let '(r, s') := h _ (image_service_show image_uuid) s in
      ([Ev (image_service_show image_uuid) r], inr (identified r), s')
    else ([], inr None, s).
Proof.
  unfold lookup_by_id. destruct (is_uuid_like (VStr image_uuid)); [|done]. simpl.
  destruct (h _ (image_service_show image_uuid) s) as [[e|image] s']; [done|].
  destruct image as [| | | str |l|d]; simpl; try done.
  - by destruct (str_contains "id" str).
  - by destruct (existsb _ l).
  - by destruct (d !! "id") as [id|] eqn:Hid.
Qed.

End ImageRuns.

Section ImageRefRuns.

Variable is_uuid_like : value -> bool.
Context {St : Type} (h : handler St).

(** The whole resolver on a string reference. *)
Lemma run_image_uuid_from_ref ref s0 :
  run h (_image_uuid_from_ref is_uuid_like (VStr ref)) s0 =
    let image_uuid := pop (split "/" ref) in
    let '(r0, s1) := h _ get_default_image_service s0 in
    match r0 with
    | inl e => ([Ev get_default_image_service r0], inl e, s1)
    | inr _ =>
        if is_uuid_like (VStr image_uuid) then
          let '(r1, s2) := h _ (image_service_show image_uuid) s1 in
          match identified r1 with
          | Some id =>
              ([Ev get_default_image_service r0;
                Ev (image_service_show image_uuid) r1], inr id, s2)
          | None =>
              name_search h (VStr ref)
                [Ev get_default_image_service r0;
                 Ev (image_service_show image_uuid) r1] s2
          end
        else name_search h (VStr ref) [Ev get_default_image_service r0] s1
    end.
Proof.
  unfold _image_uuid_from_ref.
  rewrite run_bind, run_try_except, run_lift. cbn [split_pop app].
  rewrite run_bind, run_perform.
  destruct (h _ get_default_image_service s0) as [[e|[]] s1]; [done|].
  rewrite run_bind, run_lookup_by_id.
  destruct (is_uuid_like (VStr (pop (split "/" ref)))).
  - destruct (h _ (image_service_show (pop (split "/" ref))) s1) as [r1 s2].
    destruct (identified r1) as [id|]; [done|].
    fold invalid_image_identifier. rewrite run_name_search. unfold name_search.
    by destruct (h _ (image_service_detail {["name" := VStr ref]}) s2) as [r2 s3].
  - fold invalid_image_identifier. rewrite run_name_search. unfold name_search.
    by destruct (h _ (image_service_detail {["name" := VStr ref]}) s1) as [r2 s3].
Qed.

(** On a reference that is not a string the resolver makes no call. *)
Lemma run_image_uuid_from_ref_not_str image_ref s0 :
  (∀ ref, image_ref ≠ VStr ref) ->
  run h (_image_uuid_from_ref is_uuid_like image_ref) s0 =
    ([], inl invalid_image_ref, s0).
Proof.
  intros Hns. unfold _image_uuid_from_ref.
  rewrite run_bind, run_try_except, run_lift.
  destruct image_ref as [| | |str| |]; try done. by destruct (Hns str).
Qed.

End ImageRefRuns.

(** ** Reading a run of [create] *)

Section CreateFacts.

Variable is_uuid_like : value -> bool.
Context {St : Type} (h : handler St).

Lemma run_create_shape body s tr out s' :
  run h (create is_uuid_like body) s = (tr, out, s') ->
  create_run is_uuid_like body tr out.
Proof. intros Hrun. eapply exec_create, run_exec, Hrun. Qed.

Lemma looked_up_resolved (lookup : value -> call value) ref handle tr :
  (is_None ref = true -> handle = VNone) ->
  (∀ ev, In ev (looked_up (negb (is_None ref)) (lookup ref) handle) -> In ev tr) ->
  resolved_by lookup ref tr handle.
Proof.
  unfold resolved_by, looked_up. intros Hnone Hin.
  destruct (is_None ref); [by apply Hnone|]. apply Hin. by left.
Qed.

Lemma looked_up_kind present (c : call value) handle (n : nat) ev k v r :
  (∀ r0, ∃ v0, lookup_of (Ev c r0) = Some (n, v0, r0)) ->
  In ev (looked_up present c handle) ->
  lookup_of ev = Some (k, v, r) -> k = n ∧ r = inr handle.
Proof.
  intros Hc Hin Hev. destruct present; simpl in Hin; [|done].
  destruct Hin as [<-|[]]. destruct (Hc (inr handle)) as [v0 Hv0]. by simplify_eq.
Qed.

(** A run in which the volume API's [create] was called: what it was
    called with, and where that came from. *)
Lemma create_dispatch_inv body tr out size name description kwargs r :
  create_run is_uuid_like body tr out ->
  In (Ev (volume_api_create size name description kwargs) r) tr ->
  ∃ raw t snapshot source_volume source_replica group image_id,
    body_volume body = inr raw ∧
    let volume := normalize raw in
    let ref := get volume "volume_type" VNone in
    let replica_id := get volume "source_replica" VNone in
    kwargs = assembled volume (if truthy ref then Some t else None)
               snapshot source_volume source_replica group image_id ∧
    name = get volume "display_name" VNone ∧
    description = get volume "display_description" VNone ∧
    (if truthy ref then In (Ev (volume_type_lookup is_uuid_like ref) (inr t)) tr
     else ∀ ev k v r', In ev tr -> lookup_of ev = Some (k, v, r') -> (2 <= k)%nat) ∧
    resolved_by get_snapshot (get volume "snapshot_id" VNone) tr snapshot ∧
    resolved_by get_volume (get volume "source_volid" VNone) tr source_volume ∧
    resolved_by get_volume replica_id tr source_replica ∧
    (if is_None replica_id then source_replica = VNone
     else replicated source_replica) ∧
    resolved_by consistencygroup_get (get volume "consistencygroup_id" VNone) tr
      group ∧
    size_by_priority (get volume "size" VNone) snapshot source_volume source_replica
      = inr size.
Proof.
  intros [e -> [Hnone _]|raw t snapshot source_volume source_replica group image_tr
            image_id size' r' post Hraw volume ref snapshot_id source_volid
            replica_id group_id kwargs' -> Hs Hv Hr Hg Himg Hsize Hpost] Hin.
  { rewrite Forall_forall in Hnone. by apply list_elem_of_In, Hnone in Hin. }
  assert (dispatched (Ev (volume_api_create size name description kwargs) r) =
          Some (size', get volume "display_name" VNone,
                get volume "display_description" VNone, kwargs')) as Heq.
  { repeat match type of Hin with
           | In _ (_ ++ _) =>
               apply in_app_or in Hin as [Hin|Hin];
               [exfalso; eapply in_clean in Hin; [done|clean_piece]|]
           end.
    destruct Hin as [<-|Hin]; [done|]. exfalso.
    destruct r' as [e|new_volume]; [by destruct Hpost as [-> _]|].
    rewrite Hpost in Hin. by destruct Hin as [Hin|[]]. }
  simpl in Heq. simplify_eq.
  exists raw, t, snapshot, source_volume, source_replica, group, image_id.
  split; [done|]. cbv zeta. fold volume ref replica_id.
  split_and!; try done.
  - destruct (truthy ref) eqn:Href.
    + rewrite !in_app_iff. right. left. by left.
    + intros ev k v r0 Hin' Hev.
      repeat (apply in_app_or in Hin' as [Hin'|Hin']).
      * by destruct Hin' as [<-|[<-|[]]].
      * done.
      * enough (k = 2 ∧ r0 = inr snapshot) by lia.
        eapply looked_up_kind; [|exact Hin'|exact Hev]. by eexists.
      * enough (k = 3 ∧ r0 = inr source_volume) by lia.
        eapply looked_up_kind; [|exact Hin'|exact Hev]. by eexists.
      * enough (k = 3 ∧ r0 = inr source_replica) by lia.
        eapply looked_up_kind; [|exact Hin'|exact Hev]. by eexists.
      * enough (k = 4 ∧ r0 = inr group) by lia.
        eapply looked_up_kind; [|exact Hin'|exact Hev]. by eexists.
      * rewrite Forall_forall in Himg.
        apply list_elem_of_In, Himg, aux_event_lookup in Hin'. congruence.
      * destruct Hin' as [<-|Hin']; [done|].
        destruct r' as [e|new_volume]; [by destruct Hpost as [-> _]|].
        rewrite Hpost in Hin'. by destruct Hin' as [<-|[]].
  - apply looked_up_resolved; [done|]. intros ev Hev. rewrite !in_app_iff. tauto.
  - apply looked_up_resolved; [done|]. intros ev Hev. rewrite !in_app_iff. tauto.
  - apply looked_up_resolved.
    + intros Hn. fold replica_id in Hr. by rewrite Hn in Hr.
    + intros ev Hev. rewrite !in_app_iff. tauto.
  - apply looked_up_resolved; [done|]. intros ev Hev. rewrite !in_app_iff. tauto.
Qed.

End CreateFacts.

Example canonical_uuid_yes :
  canonical_uuid (VStr "c905cedb-7281-47e4-8a62-f26bc5fc4c77") = true.
Proof. reflexivity. Qed.

Example canonical_uuid_no : canonical_uuid (VStr "cirros-0.3.4") = false.
Proof. reflexivity. Qed.

(** ** Worked runs *)

(** [{"volume": {"snapshot_id": "S1"}}]: the size of the snapshot is used. *)
Example run_create_from_snapshot :
  let volume : dict := {["snapshot_id" := VStr "S1"]} in
  let kwargs := assembled volume None snapshot_S1 VNone VNone VNone None in
  run deployment (create canonical_uuid (request volume)) () =
    ([Ev (assert_valid_body (request volume) "volume") (inr ());
      Ev (validate_name_and_description volume) (inr ());
      Ev (get_snapshot (VStr "S1")) (inr snapshot_S1);
      Ev (ext_mgr_is_loaded "os-image-create") (inr true);
      Ev (volume_api_create (VInt 10) VNone VNone kwargs) (inr VNone);
      Ev (view_builder_detail VNone) (inr VNone)],
     inr VNone, ()).
Proof. vm_compute. reflexivity. Qed.

(** [{"volume": {}}]: no size and nothing to derive it from; the
    undetermined size goes to the volume API as it is. *)
Example run_create_undetermined_size :
  let volume : dict := ∅ in
  let kwargs := assembled volume None VNone VNone VNone VNone None in
  run deployment (create canonical_uuid (request volume)) () =
    ([Ev (assert_valid_body (request volume) "volume") (inr ());
      Ev (validate_name_and_description volume) (inr ());
      Ev (ext_mgr_is_loaded "os-image-create") (inr true);
      Ev (volume_api_create VNone VNone VNone kwargs) (inr VNone);
      Ev (view_builder_detail VNone) (inr VNone)],
     inr VNone, ()).
Proof. vm_compute. reflexivity. Qed.

(** * The size deriver *)

Section SizeDeriver.

Variable is_uuid_like : value -> bool.


End SizeDeriver.


(** * The image identity resolver *)

Section ImageIdentity.

Variable is_uuid_like : value -> bool.

(** C2. Once the image service is at hand, a reference whose last path
    segment is UUID-like and whose lookup by identifier hands back a
    record with an identifier resolves to that identifier, and the catalog
    is not searched by name.  When the segment is not UUID-like, or the
    lookup raises or hands back no identifier, the catalog is searched for
    the exact name, and the search decides: no match, or a failure of the
    search other than a Conflict, is a BadRequest; more than one match is
    a Conflict; a single match gives its identifier. *)
Theorem image_identity_resolution {St} (h : handler St) ref s0 s1 :
  h _ get_default_image_service s0 = (inr (), s1) ->
  let image_uuid := pop (split "/" ref) in
  let resolve := run h (_image_uuid_from_ref is_uuid_like (VStr ref)) s0 in
  let service := Ev get_default_image_service (inr ()) in
  let search := image_service_detail {["name" := VStr ref]} in
  (∀ r s2 id,
     is_uuid_like (VStr image_uuid) = true ->
     h _ (image_service_show image_uuid) s1 = (r, s2) ->
     identified r = Some id ->
     resolve = ([service; Ev (image_service_show image_uuid) r], inr id, s2)) ∧
  (∀ r s2 found s3,
     is_uuid_like (VStr image_uuid) = true ->
     h _ (image_service_show image_uuid) s1 = (r, s2) ->
     identified r = None ->
     h _ search s2 = (found, s3) ->
     resolve = ([service; Ev (image_service_show image_uuid) r; Ev search found],
                name_search_outcome (VStr ref) found, s3)) ∧
  (∀ found s3,
     is_uuid_like (VStr image_uuid) = false ->
     h _ search s1 = (found, s3) ->
     resolve = ([service; Ev search found],
                name_search_outcome (VStr ref) found, s3)) ∧
  (∀ e, (∀ explanation, e ≠ HTTPConflict explanation) ->
        name_search_outcome (VStr ref) (inl e) = inl invalid_image_identifier) ∧
  (∀ explanation,
     name_search_outcome (VStr ref) (inl (HTTPConflict explanation))
       = inl (HTTPConflict explanation)) ∧
  name_search_outcome (VStr ref) (inr []) = inl invalid_image_identifier ∧
  (∀ img id, subscript img "id" = inr id ->
             name_search_outcome (VStr ref) (inr [img]) = inr id) ∧
  (∀ img1 img2 more,
     name_search_outcome (VStr ref) (inr (img1 :: img2 :: more))
       = inl (multiple_matches (VStr ref))).
Proof.
  intros Hsvc image_uuid resolve service search.
  subst resolve image_uuid. rewrite run_image_uuid_from_ref, Hsvc. cbv zeta.
  split_and!.
  - intros r s2 id -> Hshow Hid. by rewrite Hshow, Hid.
  - intros r s2 found s3 -> Hshow Hid Hfound. rewrite Hshow, Hid.
    unfold name_search. fold search. by rewrite Hfound.
  - intros found s3 -> Hfound. unfold name_search. fold search. by rewrite Hfound.
  - intros e He. destruct e; try done. by destruct (He explanation).
  - done.
  - done.
  - intros img id Hid. simpl. by rewrite Hid.
  - done.
Qed.

End ImageIdentity.

(** The identifier of cirros resolves by identifier, with no search. *)
Lemma image_identity_resolution_witness :
  run deployment (_image_uuid_from_ref canonical_uuid (VStr cirros_id)) () =
    ([Ev get_default_image_service (inr ());
      Ev (image_service_show cirros_id) (inr image_cirros)],
     inr (VStr cirros_id), ()).
Proof.
  exact (proj1 (image_identity_resolution canonical_uuid deployment cirros_id () ()
                  eq_refl)
           (inr image_cirros) () (VStr cirros_id) eq_refl eq_refl eq_refl).
Defined.

(** The name cirros falls to the search and has one match; the name dup
    has two; an unknown name has none. *)
Example run_image_by_name :
  (run deployment (_image_uuid_from_ref canonical_uuid (VStr "cirros")) ()).1.2
    = inr (VStr cirros_id) ∧
  (run deployment (_image_uuid_from_ref canonical_uuid (VStr "dup")) ()).1.2
    = inl (multiple_matches (VStr "dup")) ∧
  (run deployment (_image_uuid_from_ref canonical_uuid (VStr "nothing")) ()).1.2
    = inl invalid_image_identifier.
Proof. split_and!; vm_compute; reflexivity. Qed.

(** * The source replica *)


Section SourceReplica.

Variable is_uuid_like : value -> bool.


End SourceReplica.


(** The same reference in a whole request. *)
Example run_create_from_replica :
  let volume : dict := {["source_replica" := VStr "R2"]} in
  let kwargs := assembled volume None VNone VNone volume_R2 VNone None in
  run deployment (create canonical_uuid (request volume)) () =
    ([Ev (assert_valid_body (request volume) "volume") (inr ());
      Ev (validate_name_and_description volume) (inr ());
      Ev (get_volume (VStr "R2")) (inr volume_R2);
      Ev (ext_mgr_is_loaded "os-image-create") (inr true);
      Ev (volume_api_create (VInt 4) VNone VNone kwargs) (inr VNone);
      Ev (view_builder_detail VNone) (inr VNone)],
     inr VNone, ()).
Proof. vm_compute. reflexivity. Qed.

(** * No partial application *)

Section NoPartialApplication.

Variable is_uuid_like : value -> bool.

Lemma create_run_trace body tr out :
  create_run is_uuid_like body tr out ->
  (∃ e, out = inl e ∧ Forall (fun ev => dispatched ev = None) tr) ∨
  (∃ pre size name description kwargs r post,
     tr = pre ++ Ev (volume_api_create size name description kwargs) r :: post ∧
     Forall (fun ev => clean ev = true) pre ∧
     Forall (fun ev => dispatched ev = None) post ∧
     match r with
     | inl e => post = [] ∧ out = inl e
     | inr new_volume => post = [Ev (view_builder_detail new_volume) out]
     end).
Proof.
  intros [e -> [Hnone _]|raw t snapshot source_volume source_replica group
            image_tr image_id size r post Hraw volume ref snapshot_id
            source_volid replica_id group_id kwargs -> Hs Hv Hr Hg Himg
            Hsize Hpost].
  - left. by exists e.
  - right. eexists _, size, _, _, kwargs, r, post. split.
    { rewrite !app_assoc. reflexivity. }
    split_and!; [|by destruct r as [e|v]; [destruct Hpost as [-> _]|rewrite Hpost];
                     repeat constructor|done].
    repeat (apply Forall_app; split); clean_piece.
Qed.

(** A lookup that failed is the outcome of the whole operation. *)
Lemma create_failed_lookup {St} (h : handler St) s body tr out s' :
  run h (create is_uuid_like body) s = (tr, out, s') ->
  failed_lookup_propagates tr out.
Proof.
  intros Hrun. apply run_create_shape in Hrun.
  destruct (create_run_trace _ _ _ Hrun)
    as [(e & -> & Hnone)|(pre & size' & name & description & kwargs' &
                          r' & post' & -> & Hpre & _ & Hpost')].
  - destruct Hrun as [e' Heq [_ Hprop]|]; [by simplify_eq|].
    rewrite Forall_forall in Hnone. exfalso.
    assert (In (Ev (volume_api_create size (get volume "display_name" VNone)
                      (get volume "display_description" VNone) kwargs) r) tr) as Hin.
    { subst tr. rewrite !in_app_iff. do 7 right. by left. }
    by apply list_elem_of_In, Hnone in Hin.
  - intros ev k v e Hin Hev. exfalso.
    apply in_app_or in Hin as [Hin|[<-|Hin]]; [|done|].
    + rewrite Forall_forall in Hpre. apply list_elem_of_In, Hpre in Hin.
      unfold clean in Hin. rewrite Hev in Hin. by destruct (dispatched ev).
    + destruct r' as [e'|new_volume]; [by destruct Hpost' as [-> _]|].
      rewrite Hpost' in Hin. by destruct Hin as [<-|[]].
Qed.


End NoPartialApplication.

(** A snapshot that does not exist: the lookup fails, and with it the
    operation. *)
Example run_create_snapshot_missing :
  let volume : dict := {["snapshot_id" := VStr "S9"; "size" := VInt 1]} in
  run deployment (create canonical_uuid (request volume)) () =
    ([Ev (assert_valid_body (request volume) "volume") (inr ());
      Ev (validate_name_and_description volume) (inr ());
      Ev (get_snapshot (VStr "S9"))
        (inl (not_found "Snapshot %s could not be found." (VStr "S9")))],
     inl (not_found "Snapshot %s could not be found." (VStr "S9")), ()).
Proof. vm_compute. reflexivity. Qed.


(** * The field normalizer is idempotent *)

(** C7. Normalizing a request mapping twice gives what normalizing it
    once gives: after one pass the keys [name], [description] and
    [image_id] are gone, so the second pass changes nothing. *)
Theorem normalize_idempotent (volume : dict) :
  normalize (normalize volume) = normalize volume ∧
  normalize volume !! "name" = None ∧
  normalize volume !! "description" = None ∧
  normalize volume !! "image_id" = None.
Proof.
  destruct (normalize_aliases_gone volume) as (Hname & Hdescription & Himage).
  split_and!; try done.
  unfold normalize at 1.
  rewrite (rename_absent "name") by done.
  rewrite (rename_absent "description") by done.
  by rewrite rename_del_absent.
Qed.

Example normalize_request :
  normalize {["name" := VStr "n"; "description" := VStr "d";
              "image_id" := VStr "i"; "size" := VInt 1]} =
    ({["display_name" := VStr "n"; "display_description" := VStr "d";
       "imageRef" := VStr "i"; "size" := VInt 1]} : dict).
Proof. vm_compute. reflexivity. Qed.

(** * The volume type *)

Section VolumeType.

Variable is_uuid_like : value -> bool.

(** C8. A [volume_type] that is truthy is looked up by identifier when it
    is UUID-like and by name otherwise; what the lookup raises is what the
    step, and the whole operation, raises; what it hands back is stored
    under [volume_type], and is there when the volume API's [create] is
    called. *)
Theorem volume_type_resolution {St} (h : handler St) volume :
  let ref := get volume "volume_type" VNone in
  let lookup := if is_uuid_like ref then get_volume_type ref
                else get_volume_type_by_name ref in
  truthy ref = true ->
  (∀ kwargs s,
     run h (resolve_volume_type is_uuid_like volume kwargs) s =
       let '(r, s1) := h _ lookup s in
       ([Ev lookup r],
        match r with
        | inl e => inl e
        | inr volume_type => inr (<["volume_type" := volume_type]> kwargs)
        end, s1)) ∧
  (∀ body s tr out s',
     body_volume body = inr volume ->
     run h (create is_uuid_like body) s = (tr, out, s') ->
     (∀ e, In (Ev lookup (inl e)) tr -> out = inl e) ∧
     (∀ size name description kwargs r,
        In (Ev (volume_api_create size name description kwargs) r) tr ->
        ∃ volume_type,
          In (Ev lookup (inr volume_type)) tr ∧
          kwargs !! "volume_type" = Some volume_type)).
Proof.
  intros ref lookup Href. split.
  - intros kwargs s. unfold resolve_volume_type. fold ref. rewrite Href.
    subst lookup. destruct (is_uuid_like ref); cbn [negb];
      rewrite run_bind, run_perform;
      by destruct (h _ _ s) as [[e|volume_type] s1].
  - intros body s tr out s' Hbody Hrun. split.
    + intros e Hin. subst lookup.
      destruct (is_uuid_like ref);
        by eapply (create_failed_lookup _ _ _ _ _ _ _ Hrun); [exact Hin|].
    + intros size name description kwargs r Hin.
      apply run_create_shape in Hrun.
      destruct (create_dispatch_inv _ _ _ _ _ _ _ _ _ Hrun Hin)
        as (raw & t & snapshot & source_volume & src_vol & group & image_id &
            Hraw & Hkw & _ & _ & Ht & _).
      assert (raw = volume) as -> by congruence.
      rewrite !get_normalize in * by set_solver. fold ref in Ht, Hkw.
      rewrite Href in Ht, Hkw. exists t. split; [done|].
      rewrite Hkw. unfold assembled. destruct image_id; by simplify_map_eq.
Qed.

End VolumeType.

(** The type gold, by name. *)
Example run_create_typed :
  let volume : dict := {["volume_type" := VStr "gold"; "size" := VInt 1]} in
  let kwargs := assembled volume (Some type_gold) VNone VNone VNone VNone None in
  run deployment (create canonical_uuid (request volume)) () =
    ([Ev (assert_valid_body (request volume) "volume") (inr ());
      Ev (validate_name_and_description volume) (inr ());
      Ev (get_volume_type_by_name (VStr "gold")) (inr type_gold);
      Ev (ext_mgr_is_loaded "os-image-create") (inr true);
      Ev (volume_api_create (VInt 1) VNone VNone kwargs) (inr VNone);
      Ev (view_builder_detail VNone) (inr VNone)],
     inr VNone, ()).
Proof. vm_compute. reflexivity. Qed.

(** The type gold by its identifier, and a type that does not exist. *)
Lemma volume_type_resolution_witness :
  run deployment
    (resolve_volume_type canonical_uuid {["volume_type" := VStr gold_id]} ∅) () =
    ([Ev (get_volume_type (VStr gold_id)) (inr type_gold)],
     inr (<["volume_type" := type_gold]> (∅ : dict)), ()) ∧
  run deployment
    (resolve_volume_type canonical_uuid {["volume_type" := VStr "silver"]} ∅) () =
    ([Ev (get_volume_type_by_name (VStr "silver"))
        (inl (not_found "Volume type with name %s could not be found."
                (VStr "silver")))],
     inl (not_found "Volume type with name %s could not be found." (VStr "silver")),
     ()).
Proof.
  split.
  - exact (proj1 (volume_type_resolution canonical_uuid deployment
                    {["volume_type" := VStr gold_id]} eq_refl) ∅ ()).
  - exact (proj1 (volume_type_resolution canonical_uuid deployment
                    {["volume_type" := VStr "silver"]} eq_refl) ∅ ()).
Defined.

(** * Presence tests *)

Section PresenceTests.

Variable is_uuid_like : value -> bool.

(** C9. The presence tests differ.  A [volume_type] that is falsy (absent,
    [None], the empty string, [0]) is not looked up and leaves no
    [volume_type] in the keyword arguments.  A [snapshot_id],
    [source_volid], [source_replica] or [consistencygroup_id] is looked up
    whenever it is not [None] (the empty string included): the step opens
    with the lookup, what the lookup raises is what the operation raises,
    and a call of the volume API's [create] carries what it handed back. *)
Theorem presence_tests_asymmetric {St} (h : handler St) volume :
  let volume_type := get volume "volume_type" VNone in
  let snapshot_id := get volume "snapshot_id" VNone in
  let source_volid := get volume "source_volid" VNone in
  let source_replica := get volume "source_replica" VNone in
  let group_id := get volume "consistencygroup_id" VNone in
  (truthy VNone = false ∧ truthy (VStr EmptyString) = false ∧ truthy (VInt 0) = false ∧
   is_None (VStr EmptyString) = false) ∧
  (truthy volume_type = false ->
   (∀ kwargs, resolve_volume_type is_uuid_like volume kwargs = mret kwargs) ∧
   (∀ body s tr out s' size name description kwargs r,
      body_volume body = inr volume ->
      run h (create is_uuid_like body) s = (tr, out, s') ->
      In (Ev (volume_api_create size name description kwargs) r) tr ->
      kwargs !! "volume_type" = None ∧
      ∀ ref r', ¬ In (Ev (get_volume_type ref) r') tr ∧
                ¬ In (Ev (get_volume_type_by_name ref) r') tr)) ∧
  (is_None snapshot_id = false ->
   ∀ kwargs s,
     run h (resolve_snapshot volume kwargs) s =
       let '(r, s1) := h _ (get_snapshot snapshot_id) s in
       ([Ev (get_snapshot snapshot_id) r], store "snapshot" kwargs r, s1)) ∧
  (is_None source_volid = false ->
   ∀ kwargs s,
     run h (resolve_source_volume volume kwargs) s =
       let '(r, s1) := h _ (get_volume source_volid) s in
       ([Ev (get_volume source_volid) r], store "source_volume" kwargs r, s1)) ∧
  (is_None source_replica = false ->
   ∀ kwargs s,
     ∃ out, run h (resolve_source_replica volume kwargs) s =
              ([Ev (get_volume source_replica) (h _ (get_volume source_replica) s).1],
               out, (h _ (get_volume source_replica) s).2) ∧
            ∀ e, (h _ (get_volume source_replica) s).1 = inl e -> out = inl e) ∧
  (is_None group_id = false ->
   ∀ kwargs s,
     run h (resolve_consistencygroup volume kwargs) s =
       let '(r, s1) := h _ (consistencygroup_get group_id) s in
       ([Ev (consistencygroup_get group_id) r], store "consistencygroup" kwargs r, s1)) ∧
  (∀ body s tr out s',
     body_volume body = inr volume ->
     run h (create is_uuid_like body) s = (tr, out, s') ->
     (∀ e, In (Ev (get_snapshot snapshot_id) (inl e)) tr ∨
           In (Ev (get_volume source_volid) (inl e)) tr ∨
           In (Ev (get_volume source_replica) (inl e)) tr ∨
           In (Ev (consistencygroup_get group_id) (inl e)) tr ->
           out = inl e) ∧
     (∀ size name description kwargs r,
        In (Ev (volume_api_create size name description kwargs) r) tr ->
        (is_None snapshot_id = false ->
         ∃ handle, In (Ev (get_snapshot snapshot_id) (inr handle)) tr ∧
                   kwargs !! "snapshot" = Some handle) ∧
        (is_None source_volid = false ->
         ∃ handle, In (Ev (get_volume source_volid) (inr handle)) tr ∧
                   kwargs !! "source_volume" = Some handle) ∧
        (is_None source_replica = false ->
         ∃ handle, In (Ev (get_volume source_replica) (inr handle)) tr ∧
                   kwargs !! "source_replica" = Some handle) ∧
        (is_None group_id = false ->
         ∃ handle, In (Ev (consistencygroup_get group_id) (inr handle)) tr ∧
                   kwargs !! "consistencygroup" = Some handle))).
Proof.
  intros volume_type snapshot_id source_volid source_replica group_id.
  split_and!; try done.
  - intros Hfalsy. split.
    + intros kwargs. unfold resolve_volume_type. fold volume_type. by rewrite Hfalsy.
    + intros body s tr out s' size name description kwargs r Hbody Hrun Hin.
      apply run_create_shape in Hrun.
      destruct (create_dispatch_inv _ _ _ _ _ _ _ _ _ Hrun Hin)
        as (raw & t & snapshot & source_volume & src_vol & group & image_id &
            Hraw & Hkw & _ & _ & Ht & _).
      assert (raw = volume) as -> by congruence.
      rewrite !get_normalize in * by set_solver. fold volume_type in Ht, Hkw.
      rewrite Hfalsy in Ht, Hkw. split.
      * rewrite Hkw. unfold assembled. destruct image_id; by simplify_map_eq.
      * intros ref r'. split; intros Hlook.
        -- specialize (Ht _ 1%nat ref r' Hlook eq_refl). lia.
        -- specialize (Ht _ 0%nat ref r' Hlook eq_refl). lia.
  - intros Href kwargs s. unfold resolve_snapshot. fold snapshot_id.
    rewrite Href. cbn [negb]. rewrite run_bind, run_perform.
    by destruct (h _ _ s) as [[e|handle] s1].
  - intros Href kwargs s. unfold resolve_source_volume. fold source_volid.
    rewrite Href. cbn [negb]. rewrite run_bind, run_perform.
    by destruct (h _ _ s) as [[e|handle] s1].
  - intros Href kwargs s. unfold resolve_source_replica. fold source_replica.
    rewrite Href. cbn [negb]. rewrite run_bind, run_perform.
    destruct (h _ _ s) as [[e|src_vol] s1]; cbn [fst snd app].
    + eexists. split; [done|]. by intros e' [= ->].
    + rewrite run_bind, run_lift.
      destruct (subscript src_vol "replication_status") as [e|status]; cbn [app].
      * eexists. by split.
      * destruct (eq_str status "disabled"); eexists; by split.
  - intros Href kwargs s. unfold resolve_consistencygroup. fold group_id.
    rewrite Href. cbn [negb]. rewrite run_bind, run_perform.
    by destruct (h _ _ s) as [[e|handle] s1].
  - intros body s tr out s' Hbody Hrun. split.
    + intros e [Hin|[Hin|[Hin|Hin]]];
        by eapply (create_failed_lookup _ _ _ _ _ _ _ Hrun); [exact Hin|].
    + intros size name description kwargs r Hin.
      apply run_create_shape in Hrun.
      destruct (create_dispatch_inv _ _ _ _ _ _ _ _ _ Hrun Hin)
        as (raw & t & snapshot & source_volume & src_vol & group & image_id &
            Hraw & Hkw & _ & _ & _ & Hs & Hv & Hr & _ & Hg & _).
      assert (raw = volume) as -> by congruence.
      rewrite !get_normalize in * by set_solver.
      fold snapshot_id in Hs. fold source_volid in Hv.
      fold source_replica in Hr. fold group_id in Hg.
      unfold resolved_by in Hs, Hv, Hr, Hg.
      split_and!; intros Href; rewrite Href in *; eexists; (split; [eassumption|]);
        rewrite Hkw; unfold assembled; destruct image_id; by simplify_map_eq.
Qed.

End PresenceTests.

(** An empty [volume_type] is passed over; an empty [snapshot_id] is
    looked up, and not found. *)
Lemma presence_tests_asymmetric_witness :
  let volume : dict :=
    {["volume_type" := VStr EmptyString; "snapshot_id" := VStr EmptyString]} in
  resolve_volume_type canonical_uuid volume ∅ = mret ∅ ∧
  run deployment (resolve_snapshot volume ∅) () =
    ([Ev (get_snapshot (VStr EmptyString))
        (inl (not_found "Snapshot %s could not be found." (VStr EmptyString)))],
     inl (not_found "Snapshot %s could not be found." (VStr EmptyString)), ()).
Proof.
  intros volume.
  destruct (presence_tests_asymmetric canonical_uuid deployment volume)
    as (_ & Htype & Hsnapshot & _).
  split.
  - exact (proj1 (Htype eq_refl) ∅).
  - exact (Hsnapshot eq_refl ∅ ()).
Defined.

(** * The shape of an image reference *)

Lemma split_nonempty sep s : split sep s ≠ [].
Proof.
  destruct s as [|c s]; simpl; [done|].
  destruct (Ascii.eqb c sep); [done|]. by destruct (split sep s).
Qed.

Lemma split_concat s : String.concat "/" (split "/" s) = s.
Proof.
  induction s as [|c s IH]; [done|]. simpl.
  destruct (Ascii.eqb c "/") eqn:Hc.
  - apply Ascii.eqb_eq in Hc as ->.
    pose proof (split_nonempty "/" s) as Hne.
    destruct (split "/" s) as [|piece rest]; [done|]. simpl in *. by rewrite IH.
  - pose proof (split_nonempty "/" s) as Hne.
    destruct (split "/" s) as [|piece rest]; [done|].
    destruct rest as [|piece' rest]; simpl in *; by rewrite <- IH.
Qed.

Lemma split_no_separator s :
  Forall (fun piece => has_char "/" piece = false) (split "/" s).
Proof.
  induction s as [|c s IH]; [by repeat constructor|]. simpl.
  destruct (Ascii.eqb c "/") eqn:Hc; [by constructor|].
  destruct (split "/" s) as [|piece rest]; [by repeat constructor; simpl; rewrite Hc|].
  inversion IH; subst. constructor; [|done]. simpl. by rewrite Hc.
Qed.

Lemma string_append_assoc (a b c : string) :
  (a ++ (b ++ c))%string = ((a ++ b) ++ c)%string.
Proof.
  induction a as [|x a IH]; [done|].
  change (String x (a ++ (b ++ c)) = String x ((a ++ b) ++ c))%string.
  by rewrite IH.
Qed.

Lemma concat_last (pieces : list string) :
  pieces ≠ [] ->
  String.concat "/" pieces = pop pieces ∨
  ∃ prefix, String.concat "/" pieces = (prefix ++ "/" ++ pop pieces)%string.
Proof.
  unfold pop. induction pieces as [|piece rest IH]; [done|]. intros _.
  destruct rest as [|piece' rest]; [by left|]. right.
  destruct IH as [IH|[prefix IH]]; [done| |].
  - exists piece. change (String.concat "/" (piece :: piece' :: rest))
      with (piece ++ "/" ++ String.concat "/" (piece' :: rest))%string.
    by rewrite IH.
  - exists (piece ++ "/" ++ prefix)%string.
    change (String.concat "/" (piece :: piece' :: rest))
      with (piece ++ "/" ++ String.concat "/" (piece' :: rest))%string.
    rewrite IH. change (List.last (piece :: piece' :: rest) EmptyString)
      with (List.last (piece' :: rest) EmptyString).
    by rewrite !string_append_assoc.
Qed.

(** [image_ref.split('/').pop()] is what follows the last slash. *)
Lemma pop_split_after_last_slash ref :
  let segment := pop (split "/" ref) in
  has_char "/" segment = false ∧
  (ref = segment ∨ ∃ prefix, ref = (prefix ++ "/" ++ segment)%string).
Proof.
  intros segment. split.
  - pose proof (split_no_separator ref) as Hall. rewrite Forall_forall in Hall.
    apply Hall. subst segment. unfold pop.
    pose proof (split_nonempty "/" ref) as Hne.
    destruct (split "/" ref) as [|piece rest] eqn:Hs; [done|].
    apply list_elem_of_In.
    destruct (exists_last (l := piece :: rest)) as (init & u & Heq); [done|].
    rewrite Heq, last_last. apply in_or_app. right. by left.
  - destruct (concat_last (split "/" ref) (split_nonempty _ _)) as [H|[prefix H]];
      rewrite split_concat in H; [by left|right; by exists prefix].
Qed.

Example pop_split_url :
  pop (split "/" "http://glance:9292/v2/images/c905cedb-7281-47e4-8a62-f26bc5fc4c77")
    = cirros_id ∧
  pop (split "/" "cirros") = "cirros" ∧
  pop (split "/" "images/") = EmptyString.
Proof. split_and!; reflexivity. Qed.

Section ImageReference.

Variable is_uuid_like : value -> bool.


End ImageReference.

(** A reference in the shape of a URL: found by the identifier that ends
    it, although no image bears the URL as its name. *)
Example run_image_by_url :
  let url := "http://glance:9292/v2/images/c905cedb-7281-47e4-8a62-f26bc5fc4c77" in
  run deployment (_image_uuid_from_ref canonical_uuid (VStr url)) () =
    ([Ev get_default_image_service (inr ());
      Ev (image_service_show cirros_id) (inr image_cirros)],
     inr (VStr cirros_id), ()) ∧
  name_search deployment (VStr url) [] () =
    ([Ev (image_service_detail {["name" := VStr url]}) (inr [])],
     inl invalid_image_identifier, ()).
Proof. split; vm_compute; reflexivity. Qed.


(** * The update merger *)

Section UpdateMerger.

(** The extraction loop on a payload that is a mapping. *)
Lemma extract_fold (volume : dict) keys (acc : dict) :
  for_fold
    (fun update_dict key =>
       present ← lift (contains key (VDict volume));
       if (present : bool) then
         v ← lift (subscript (VDict volume) key);
         mret (<[key := v]> update_dict)
       else mret update_dict)
    acc keys =
  mret (foldl (fun update_dict key =>
                 match volume !! key with
                 | Some v => <[key := v]> update_dict
                 | None => update_dict
                 end) acc keys).
Proof.
  revert acc. induction keys as [|key keys IH]; intros acc; [done|].
  cbn [for_fold foldl]. simpl. destruct (volume !! key) as [v|] eqn:Hkey; simpl.
  - apply IH.
  - apply IH.
Qed.

Lemma extract_lookup (volume : dict) keys (acc : dict) k :
  foldl (fun update_dict key =>
           match volume !! key with
           | Some v => <[key := v]> update_dict
           | None => update_dict
           end) acc keys !! k =
  match (if bool_decide (k ∈ keys) then volume !! k else None) with
  | Some v => Some v
  | None => acc !! k
  end.
Proof.
  revert acc. induction keys as [|key keys IH]; intros acc; [done|].
  cbn [foldl]. rewrite IH. clear IH.
  destruct (decide (k = key)) as [->|Hne].
  - rewrite (bool_decide_eq_true_2 (key ∈ key :: keys)) by set_solver.
    destruct (volume !! key) as [v|] eqn:Hkey.
    + rewrite lookup_insert_eq. by case_bool_decide.
    + by case_bool_decide.
  - assert (bool_decide (k ∈ key :: keys) = bool_decide (k ∈ keys)) as ->.
    { apply bool_decide_ext. set_solver. }
    destruct (volume !! key) as [v|]; [|done].
    by rewrite lookup_insert_ne.
Qed.

Lemma extract_update_dict (volume : dict) :
  extract_update (VDict volume) = mret (allowed_fields volume).
Proof.
  unfold extract_update. rewrite extract_fold. f_equal.
  apply map_eq. intros k. rewrite extract_lookup, lookup_empty.
  unfold allowed_fields, valid_update_keys.
  destruct (volume !! k) as [v|] eqn:Hk.
  - case_bool_decide as Hin.
    + symmetry. by apply map_lookup_filter_Some.
    + symmetry. apply map_lookup_filter_None. right. intros v' Hv'. done.
  - assert (filter (fun kv : string * value =>
                      kv.1 ∈ ["name"; "description"; "display_name";
                              "display_description"; "metadata"]) volume !! k = None)
      as ->; [|by case_bool_decide].
    apply map_lookup_filter_None. by left.
Qed.

End UpdateMerger.

Section UpdateRuns.

Context {St : Type} (h : handler St).

Lemma truthy_dict (d : dict) k v : d !! k = Some v -> truthy (VDict d) = true.
Proof.
  intros Hk. simpl. rewrite bool_decide_eq_false_2; [done|].
  intros ->. by rewrite lookup_empty in Hk.
Qed.

(** The fields an update payload comes down to. *)
Lemma run_update_fields (d volume : dict) s :
  d !! "volume" = Some (VDict volume) ->
  run h (update_fields (VDict d)) s =
    let '(r, s1) := h _ (validate_name_and_description (allowed_fields volume)) s in
    ([Ev (validate_name_and_description (allowed_fields volume)) r],
     match r with
     | inl e => inl e
     | inr _ =>
         inr (rename "description" "display_description"
                (rename "name" "display_name" (allowed_fields volume)))
     end, s1).
Proof.
  intros Hvolume. unfold update_fields.
  rewrite (truthy_dict d "volume" (VDict volume)) by done. cbn [negb].
  rewrite run_bind, run_lift. cbn [contains app].
  rewrite bool_decide_eq_true_2 by (by rewrite Hvolume). cbn [negb].
  rewrite run_bind, run_lift. cbn [subscript app]. rewrite Hvolume.
  rewrite run_bind, extract_update_dict. cbn [run mret prog_ret app].
  rewrite run_bind, run_perform.
  by destruct (h _ (validate_name_and_description (allowed_fields volume)) s)
    as [[e|[]] s1].
Qed.

Lemma exec_update_fields (d volume : dict) tr out :
  d !! "volume" = Some (VDict volume) ->
  exec (update_fields (VDict d)) tr out ->
  Forall (fun ev => updated ev = None) tr ∧
  ∀ fields, out = inr fields ->
            fields = rename "description" "display_description"
                       (rename "name" "display_name" (allowed_fields volume)).
Proof.
  intros Hvolume. unfold update_fields.
  rewrite (truthy_dict d "volume" (VDict volume)) by done.
  cbn [negb contains lift mbind prog_bind bind].
  rewrite bool_decide_eq_true_2 by (by rewrite Hvolume).
  cbn [negb subscript lift mbind prog_bind bind]. rewrite Hvolume.
  cbn [lift mbind prog_bind bind]. rewrite extract_update_dict.
  intros H. simpl in H. destruct H as (r & tr' & -> & H).
  destruct r as [e|[]]; simpl in H; destruct H as [-> ->].
  - split; [by repeat constructor|]. by intros fields.
  - split; [by repeat constructor|]. by intros fields [= <-].
Qed.

(** The guarded block of lines 324-330 calls the volume API's [update]
    with the field set it was given, and with nothing else. *)
Lemma exec_update_block id (update_dict : dict) tr out ev target fields :
  exec (try_except
          (volume ← perform (volume_api_get id);
           _ ← perform (notify_about_volume_usage volume "update.start");
           _ ← perform (volume_api_update volume update_dict);
           mret volume)
          (fun e => match e with
                    | InvalidVolumeMetadataSize msg =>
                        Raise (HTTPRequestEntityTooLarge msg)
                    | _ => Raise e
                    end)) tr out ->
  In ev tr -> updated ev = Some (target, fields) -> fields = update_dict.
Proof.
  intros H Hin Hev.
  simpl in H. destruct H as (r1 & tr1 & -> & H).
  destruct Hin as [<-|Hin]; [done|].
  destruct r1 as [e1|vol]; simpl in H.
  { destruct e1; simpl in H; by destruct H as [-> _]. }
  destruct H as (r2 & tr2 & -> & H). destruct Hin as [<-|Hin]; [done|].
  destruct r2 as [e2|[]]; simpl in H.
  { destruct e2; simpl in H; by destruct H as [-> _]. }
  destruct H as (r3 & tr3 & -> & H). destruct Hin as [<-|Hin].
  { simpl in Hev. by simplify_eq. }
  destruct r3 as [e3|[]]; simpl in H.
  - destruct e3; simpl in H; by destruct H as [-> _].
  - by destruct H as [-> _].
Qed.

(** Whatever reaches the volume API's [update] is the renamed allow-listed
    part of the payload. *)
Lemma exec_update id (d volume : dict) tr out :
  d !! "volume" = Some (VDict volume) ->
  exec (update id (VDict d)) tr out ->
  ∀ ev target fields,
    In ev tr -> updated ev = Some (target, fields) ->
    fields = rename "description" "display_description"
               (rename "name" "display_name" (allowed_fields volume)).
Proof.
  intros Hvolume H ev target fields Hin Hev. unfold update in H.
  apply exec_bind in H as [(e & -> & H)|(update_dict & t1 & t2 & -> & H1 & H)].
  { apply (exec_update_fields _ _ _ _ Hvolume) in H as [Hnone _].
    rewrite Forall_forall in Hnone. apply list_elem_of_In, Hnone in Hin. congruence. }
  apply (exec_update_fields _ _ _ _ Hvolume) in H1 as [Hnone Hfields].
  specialize (Hfields _ eq_refl) as ->.
  apply in_app_or in Hin as [Hin|Hin].
  { rewrite Forall_forall in Hnone. apply list_elem_of_In, Hnone in Hin. congruence. }
  clear Hnone.
  apply exec_bind in H as [(e & -> & H)|(target' & t3 & t4 & -> & H3 & H)].
  { by eapply exec_update_block. }
  apply in_app_or in Hin as [Hin|Hin].
  { by eapply exec_update_block. }
  exfalso. clear H3.
  apply exec_bind in H as [(e & -> & H)|(merged & t5 & t6 & -> & H5 & H)].
  { apply exec_lift in H as [-> _]. done. }
  apply exec_lift in H5 as [-> _]. simpl in Hin.
  apply exec_bind in H as [(e & -> & H)|(shown' & t7 & t8 & -> & H7 & H)].
  { apply exec_perform in H as ->. by destruct Hin as [<-|[]]. }
  apply exec_perform in H7 as ->. destruct Hin as [<-|Hin]; [done|].
  apply exec_bind in H as [(e & -> & H)|([] & t9 & t10 & -> & H9 & H)].
  { apply exec_perform in H as ->. by destruct Hin as [<-|[]]. }
  apply exec_perform in H9 as ->. destruct Hin as [<-|Hin]; [done|].
  apply exec_perform in H as ->. by destruct Hin as [<-|[]].
Qed.

End UpdateRuns.

Lemma allowed_fields_lookup (volume : dict) k :
  allowed_fields volume !! k =
    if bool_decide (k ∈ valid_update_keys) then volume !! k else None.
Proof.
  unfold allowed_fields, valid_update_keys.
  destruct (volume !! k) as [v|] eqn:Hk.
  - case_bool_decide as Hin.
    + by apply map_lookup_filter_Some.
    + apply map_lookup_filter_None. right. intros v' Hv'. done.
  - assert (filter (fun kv : string * value =>
                      kv.1 ∈ ["name"; "description"; "display_name";
                              "display_description"; "metadata"]) volume !! k = None)
      as ->; [|by case_bool_decide].
    apply map_lookup_filter_None. by left.
Qed.

Lemma update_fields_name x :
  rename "description" "display_description"
    (rename "name" "display_name" (allowed_fields {["name" := x]}))
  = ({["display_name" := x]} : dict).
Proof.
  apply map_eq. intros k.
  assert (allowed_fields {["name" := x]} = ({["name" := x]} : dict)) as ->.
  { apply map_eq. intros k'. rewrite allowed_fields_lookup.
    destruct (decide (k' = "name")) as [->|Hne]; [done|].
    rewrite lookup_singleton_ne by done. by case_bool_decide. }
  unfold rename at 2. rewrite lookup_singleton_eq.
  rewrite delete_singleton_eq, insert_empty.
  by rewrite rename_absent.
Qed.

Section UpdateRequest.

Context {St : Type} (h : handler St).


End UpdateRequest.


Example run_update_refused :
  run deployment (update (VStr "V1") (VDict ∅)) () = ([], inl missing_body, ()) ∧
  run deployment (update (VStr "V1") (VDict {["other" := VDict ∅]})) () =
    ([], inl (missing_element "volume"), ()).
Proof. split; vm_compute; reflexivity. Qed.

(** A body that is no mapping: a string has no such element, a number
    cannot be searched. *)
Example run_update_not_a_mapping :
  run deployment (update (VStr "V1") (VStr "rename")) () =
    ([], inl (missing_element "volume"), ()) ∧
  run deployment (update (VStr "V1") (VInt 5)) () = ([], inl TypeError, ()).
Proof. split; vm_compute; reflexivity. Qed.

Example run_update_renamed :
  let target := VDict {["id" := VStr "V1"; "display_name" := VStr "old"]} in
  let renamed := VDict {["id" := VStr "V1"; "display_name" := VStr "x"]} in
  run deployment
    (update (VStr "V1")
       (request {["name" := VStr "x"; "status" := VStr "error"]})) () =
    ([Ev (validate_name_and_description {["name" := VStr "x"]}) (inr ());
      Ev (volume_api_get (VStr "V1")) (inr target);
      Ev (notify_about_volume_usage target "update.start") (inr ());
      Ev (volume_api_update target {["display_name" := VStr "x"]}) (inr ());
      Ev (add_visible_admin_metadata renamed) (inr renamed);
      Ev (notify_about_volume_usage renamed "update.end") (inr ());
      Ev (view_builder_detail renamed) (inr renamed)],
     inr renamed, ()).
Proof. vm_compute. reflexivity. Qed.

(** * The listing query *)

Section Listing.

Variable query_volume_filters : list string.
Context {St : Type} (h : handler St).

(** The filter alias: [name] leaves, its value goes to [display_name],
    the other keys stay. *)
Lemma alias_filters_lookup (filters : dict) :
  alias_filters filters !! "name" = None ∧
  (∀ v, filters !! "name" = Some v -> alias_filters filters !! "display_name" = Some v) ∧
  (∀ k, k ≠ "name" -> k ≠ "display_name" -> alias_filters filters !! k = filters !! k) ∧
  (filters !! "name" = None -> alias_filters filters = filters).
Proof.
  unfold alias_filters. destruct (filters !! "name") as [v|] eqn:Hname.
  - split_and!.
    + apply lookup_delete_eq.
    + intros v' [= <-]. rewrite lookup_delete_ne by done. apply lookup_insert_eq.
    + intros k Hk1 Hk2. rewrite lookup_delete_ne by done. by rewrite lookup_insert_ne.
    + done.
  - by split_and!.
Qed.

(** The sort-key alias when [name] is given once. *)
Lemma alias_sort_keys_once (before after : list value) :
  Forall (fun k => eq_str k "name" = false) (before ++ after) ->
  alias_sort_keys (before ++ VStr "name" :: after) =
    before ++ VStr "display_name" :: after ∧
  Forall (fun k => eq_str k "name" = false)
    (alias_sort_keys (before ++ VStr "name" :: after)).
Proof.
  intros Hnone. apply Forall_app in Hnone as [Hbefore Hafter].
  assert (list_index "name" (before ++ VStr "name" :: after) = Some (length before))
    as Hindex.
  { clear Hafter. induction before as [|k before IH]; [done|].
    inversion Hbefore as [|? ? Hk Hrest]; subst. simpl. rewrite Hk.
    by rewrite IH. }
  unfold alias_sort_keys. rewrite Hindex.
  assert (<[length before := VStr "display_name"]> (before ++ VStr "name" :: after)
          = before ++ VStr "display_name" :: after) as ->.
  { rewrite insert_app_r_alt by lia. by rewrite Nat.sub_diag. }
  split; [done|]. apply Forall_app. split; [done|]. by constructor.
Qed.

(** The listing pipeline up to the query: [glance_metadata] is dropped
    before the filters are stripped, whoever asks; the aliases are applied
    to what the stripping left; the result is checked and passed on. *)
Lemma run_get_volumes_query params is_detail s
    marker limit offset params1 s1 sort_keys sort_dirs params2 s2 stripped s3 s4 :
  h _ (get_pagination_params params) s = (inr (marker, limit, offset, params1), s1) ->
  h _ (get_sort_params params1) s1 = (inr (sort_keys, sort_dirs, params2), s2) ->
  h _ (remove_invalid_filter_options (delete "glance_metadata" params2)
         query_volume_filters) s2 = (inr stripped, s3) ->
  h _ (check_volume_filters (alias_filters stripped)) s3 = (inr (), s4) ->
  delete "glance_metadata" params2 !! "glance_metadata" = None ∧
  ∃ found rest out s',
    run h (_get_volumes query_volume_filters params is_detail) s =
      (Ev (get_pagination_params params) (inr (marker, limit, offset, params1))
       :: Ev (get_sort_params params1) (inr (sort_keys, sort_dirs, params2))
       :: Ev (remove_invalid_filter_options (delete "glance_metadata" params2)
                query_volume_filters) (inr stripped)
       :: Ev (check_volume_filters (alias_filters stripped)) (inr ())
       :: Ev (volume_api_get_all marker limit (alias_sort_keys sort_keys) sort_dirs
                (alias_filters stripped) offset) found
       :: rest, out, s').
Proof.
  intros Hpage Hsort Hstrip Hcheck. split; [apply lookup_delete_eq|].
  unfold _get_volumes.
  rewrite run_bind, run_perform, Hpage. cbn [app].
  rewrite run_bind, run_perform, Hsort. cbn [app].
  rewrite run_bind, run_perform, Hstrip. cbn [app].
  rewrite run_bind, run_perform, Hcheck. cbn [app].
  rewrite run_bind, run_perform.
  destruct (h _ (volume_api_get_all _ _ _ _ _ _) s4) as [found s5].
  exists found.
  destruct found as [e|volumes]; cbn [app]; [by eexists _, _, _|].
  destruct (run h _ s5) as [[tr6 out6] s6]. by eexists _, _, _.
Qed.

End Listing.

Example alias_sort_keys_single :
  alias_sort_keys [VStr "created_at"; VStr "name"; VStr "size"] =
    [VStr "created_at"; VStr "display_name"; VStr "size"].
Proof. reflexivity. Qed.

(** C5. The sort-key alias misses a key given twice: for the query
    [?sort=name,name&name=vol&glance_metadata=x] the filters are rewritten
    and [glance_metadata] is dropped, but the sort keys that reach the
    volume API's [get_all] are [display_name, name]: line 105 replaces
    the first [name] only. *)
Theorem listing_sort_alias_misses_repeated_key :
  let params : dict :=
    {["sort" := VStr "name,name"; "name" := VStr "vol";
      "glance_metadata" := VStr "x"]} in
  let filters : dict := {["name" := VStr "vol"]} in
  let aliased : dict := {["display_name" := VStr "vol"]} in
  alias_sort_keys [VStr "name"; VStr "name"] = [VStr "display_name"; VStr "name"] ∧
  run deployment (_get_volumes ["name"; "status"] params false) () =
    ([Ev (get_pagination_params params) (inr (VNone, VNone, VNone, params));
      Ev (get_sort_params params)
        (inr ([VStr "name"; VStr "name"], [VStr "desc"; VStr "desc"],
              delete "sort" params));
      Ev (remove_invalid_filter_options filters ["name"; "status"]) (inr filters);
      Ev (check_volume_filters aliased) (inr ());
      Ev (volume_api_get_all VNone VNone [VStr "display_name"; VStr "name"]
            [VStr "desc"; VStr "desc"] aliased VNone) (inr []);
      Ev (cache_db_volumes []) (inr ());
      Ev (view_builder_summary_list []) (inr (VList []))],
     inr (VList []), ()).
Proof. split; [reflexivity|]. vm_compute. reflexivity. Qed.

(** * Further properties of [create] *)

(** What the normalizer leaves under the canonical keys: the alias wins
    over a canonical key given beside it. *)
Lemma get_normalize_aliased (m : dict) :
  get (normalize m) "display_name" VNone =
    match m !! "name" with Some v => v | None => get m "display_name" VNone end ∧
  get (normalize m) "display_description" VNone =
    match m !! "description" with
    | Some v => v
    | None => get m "display_description" VNone
    end ∧
  get (normalize m) "imageRef" VNone =
    match m !! "image_id" with Some v => v | None => get m "imageRef" VNone end.
Proof.
  unfold get, normalize. split_and!.
  - rewrite rename_del_other, rename_other by done.
    unfold rename. destruct (m !! "name") as [v|] eqn:Hname; [|done].
    by rewrite lookup_insert_eq.
  - rewrite rename_del_other by done.
    unfold rename at 1. rewrite rename_other by done.
    destruct (m !! "description") as [v|] eqn:Hd.
    + by rewrite lookup_insert_eq.
    + by rewrite rename_other by done.
  - unfold rename_del. rewrite !rename_other by done.
    destruct (m !! "image_id") as [v|] eqn:Hi.
    + rewrite lookup_delete_ne by done. rewrite lookup_insert_eq.
      unfold get. rewrite !rename_other by done. by rewrite Hi.
    + by rewrite !rename_other by done.
Qed.

Section CreateCommand.

Variable is_uuid_like : value -> bool.


(** X2. The keyword arguments of the volume API's [create] always carry
    [metadata], [availability_zone] and [scheduler_hints] as the request
    has them ([None] when it has none), [multiattach] with [False] for a
    request without it, and an entry, be it [None], for each of
    [snapshot], [source_volume], [source_replica] and [consistencygroup];
    [volume_type] is there exactly when the request's is truthy, and the
    only other key there can be is [image_id]. *)
Theorem create_command_fields {St} (h : handler St) s body volume tr out s'
    size name description kwargs r :
  body_volume body = inr volume ->
  run h (create is_uuid_like body) s = (tr, out, s') ->
  In (Ev (volume_api_create size name description kwargs) r) tr ->
  kwargs !! "metadata" = Some (get volume "metadata" VNone) ∧
  kwargs !! "availability_zone" = Some (get volume "availability_zone" VNone) ∧
  kwargs !! "scheduler_hints" = Some (get volume "scheduler_hints" VNone) ∧
  kwargs !! "multiattach" = Some (get volume "multiattach" (VBool false)) ∧
  (∀ k, k ∈ ["snapshot"; "source_volume"; "source_replica"; "consistencygroup"] ->
        is_Some (kwargs !! k)) ∧
  (is_Some (kwargs !! "volume_type") ↔ truthy (get volume "volume_type" VNone) = true) ∧
  (∀ k, is_Some (kwargs !! k) ->
        k ∈ ["metadata"; "availability_zone"; "scheduler_hints"; "multiattach";
             "snapshot"; "source_volume"; "source_replica"; "consistencygroup";
             "volume_type"; "image_id"]).
Proof.
  intros Hbody Hrun Hin. apply run_create_shape in Hrun.
  destruct (create_dispatch_inv _ _ _ _ _ _ _ _ _ Hrun Hin)
    as (raw & t & snapshot & source_volume & source_replica & group & image_id &
        Hraw & Hkw & _).
  assert (raw = volume) as -> by congruence.
  rewrite !get_normalize in Hkw by set_solver.
  rewrite Hkw. unfold assembled. clear Hkw.
  rewrite !get_normalize by set_solver.
  split_and!.
  - destruct image_id; by simplify_map_eq.
  - by simplify_map_eq.
  - by simplify_map_eq.
  - by simplify_map_eq.
  - intros k Hk.
    assert (k = "snapshot" ∨ k = "source_volume" ∨ k = "source_replica" ∨
            k = "consistencygroup") as [-> | [-> | [-> | ->]]] by set_solver;
      destruct image_id; by simplify_map_eq.
  - destruct (truthy (get volume "volume_type" VNone));
      destruct image_id; simplify_map_eq; split;
      first [done | by intros [? ?] | by eexists].
  - intros k [v Hv].
    destruct (decide (k ∈ ["metadata"; "availability_zone"; "scheduler_hints";
                           "multiattach"; "snapshot"; "source_volume";
                           "source_replica"; "consistencygroup"; "volume_type";
                           "image_id"])) as [|Hout]; [done|]. exfalso.
    repeat (rewrite lookup_insert_ne in Hv by (intros <-; apply Hout; set_solver)).
    destruct image_id;
      repeat (rewrite lookup_insert_ne in Hv by (intros <-; apply Hout; set_solver));
      destruct (truthy (get volume "volume_type" VNone));
      repeat (rewrite lookup_insert_ne in Hv by (intros <-; apply Hout; set_solver));
      by rewrite lookup_empty in Hv.
Qed.

End CreateCommand.

Example run_create_named :
  let volume : dict :=
    {["name" := VStr "n"; "display_name" := VStr "d";
      "description" := VStr "text"; "size" := VInt 1]} in
  let kwargs := assembled (normalize volume) None VNone VNone VNone VNone None in
  run deployment (create canonical_uuid (request volume)) () =
    ([Ev (assert_valid_body (request volume) "volume") (inr ());
      Ev (validate_name_and_description volume) (inr ());
      Ev (ext_mgr_is_loaded "os-image-create") (inr true);
      Ev (volume_api_create (VInt 1) (VStr "n") (VStr "text") kwargs) (inr VNone);
      Ev (view_builder_detail VNone) (inr VNone)],
     inr VNone, ()).
Proof. vm_compute. reflexivity. Qed.


Lemma create_command_fields_witness :
  let volume : dict :=
    {["name" := VStr "n"; "display_name" := VStr "d";
      "description" := VStr "text"; "size" := VInt 1]} in
  let kwargs := assembled (normalize volume) None VNone VNone VNone VNone None in
  kwargs !! "multiattach" = Some (VBool false) ∧
  kwargs !! "snapshot" = Some VNone ∧
  kwargs !! "volume_type" = None.
Proof.
  intros volume kwargs.
  destruct (create_command_fields canonical_uuid deployment () (request volume)
              volume _ _ _ (VInt 1) (VStr "n") (VStr "text") kwargs (inr VNone)
              eq_refl run_create_named)
    as (_ & _ & _ & Hmulti & _ & _ & _).
  { simpl. tauto. }
  split; [exact Hmulti|]. split; vm_compute; reflexivity.
Defined.

(** * Validation comes first *)

Section CreateValidation.

Variable is_uuid_like : value -> bool.
Context {St : Type} (h : handler St).

(** X3. [create] checks before it looks anything up.  A body refused by
    [assert_valid_body] ends the operation with that call alone in the
    trace; a name or description refused by
    [validate_name_and_description] ends it after these two calls: no
    lookup is made and the volume API is not reached. *)
Theorem create_validation_first body s :
  (∀ e s1,
     h _ (assert_valid_body body "volume") s = (inl e, s1) ->
     run h (create is_uuid_like body) s =
       ([Ev (assert_valid_body body "volume") (inl e)], inl e, s1)) ∧
  (∀ volume e s1 s2,
     h _ (assert_valid_body body "volume") s = (inr (), s1) ->
     body_volume body = inr volume ->
     h _ (validate_name_and_description volume) s1 = (inl e, s2) ->
     run h (create is_uuid_like body) s =
       ([Ev (assert_valid_body body "volume") (inr ());
         Ev (validate_name_and_description volume) (inl e)], inl e, s2)).
Proof.
  split.
  - intros e s1 Hassert. unfold create. by rewrite run_bind, run_perform, Hassert.
  - intros volume e s1 s2 Hassert Hbody Hvalidate. unfold create.
    rewrite run_bind, run_perform, Hassert. cbn [app].
    rewrite run_bind, run_lift, Hbody. cbn [app].
    by rewrite run_bind, run_perform, Hvalidate.
Qed.

End CreateValidation.

Lemma create_validation_first_witness :
  let volume : dict := {["name" := VStr "bad"; "snapshot_id" := VStr "S1"]} in
  let refusal := HTTPBadRequest (Msg "Name has invalid characters." None) in
  run strict (create canonical_uuid (request volume)) () =
    ([Ev (assert_valid_body (request volume) "volume") (inr ());
      Ev (validate_name_and_description volume) (inl refusal)], inl refusal, ()).
Proof.
  intros volume refusal.
  exact (proj2 (create_validation_first canonical_uuid strict (request volume) ())
           volume refusal () () eq_refl eq_refl eq_refl).
Defined.

(** * The image step within [create] *)

Lemma derive_size_auxiliary volume kwargs : only_auxiliary (derive_size volume kwargs).
Proof.
  unfold derive_size, and_then, resolved. repeat aux_step.
Qed.

Lemma looked_up_not_image present (c : call value) handle :
  image_call c = false ->
  Forall (fun ev => image_event ev = false) (looked_up present c handle).
Proof. intros Hc. destruct present; by repeat constructor. Qed.

(** What the image step does, by the answer of the extension manager. *)
Lemma exec_resolve_image is_uuid_like volume kwargs tr kw :
  exec (resolve_image is_uuid_like volume kwargs) tr (inr kw) ->
  let image_ref := get volume "imageRef" VNone in
  ∃ loaded rest,
    tr = Ev (ext_mgr_is_loaded "os-image-create") (inr loaded) :: rest ∧
    if loaded && negb (is_None image_ref) then
      ∃ image_uuid,
        exec (_image_uuid_from_ref is_uuid_like image_ref) rest (inr image_uuid) ∧
        kw = <["image_id" := image_uuid]> kwargs
    else rest = [] ∧ kw = kwargs.
Proof.
  intros H image_ref. unfold resolve_image in H. fold image_ref in H.
  apply exec_bind in H as [(e & ? & H)|(loaded & t1 & t2 & -> & H1 & H)]; [done|].
  apply exec_perform in H1 as ->. exists loaded, t2. split; [done|].
  destruct loaded; cbn [andb]; [|by destruct H as [-> [= ->]]].
  destruct (negb (is_None image_ref)); [|by destruct H as [-> [= ->]]].
  apply exec_bind in H as [(e & ? & H)|(u & t3 & t4 & -> & H3 & H)]; [done|].
  destruct H as [-> [= ->]]. rewrite app_nil_r. by exists u.
Qed.

Section OnlyCalls.

Variable P : forall X, call X -> bool.

Lemma only_calls_events {A} (p : prog A) tr out :
  only_calls P p -> exec p tr out ->
  Forall (fun ev => match ev with Ev c _ => P _ c end = true) tr.
Proof.
  revert tr. induction p as [a|e|X c k IH]; intros tr Hp H; simpl in *.
  - destruct H as [-> _]. constructor.
  - destruct H as [-> _]. constructor.
  - destruct Hp as [Hc Hk]. destruct H as (r & tr' & -> & H).
    constructor; [done|]. by eapply IH.
Qed.

Lemma only_calls_bind {A B} (p : prog A) (f : A -> prog B) :
  only_calls P p -> (∀ a, only_calls P (f a)) -> only_calls P (p ≫= f).
Proof.
  unfold mbind, prog_bind. intros Hp Hf.
  induction p as [a|e|X c k IH]; simpl in *; [done|done|].
  destruct Hp as [Hc Hk]. split; [done|]. intros r. by apply IH.
Qed.

Lemma only_calls_try {A} (p : prog A) (f : exn -> prog A) :
  only_calls P p -> (∀ e, only_calls P (f e)) -> only_calls P (try_except p f).
Proof.
  intros Hp Hf. induction p as [a|e|X c k IH]; simpl in *; [done|done|].
  destruct Hp as [Hc Hk]. split; [done|]. intros r. by apply IH.
Qed.

Lemma only_calls_lift {A} (r : exn + A) : only_calls P (lift r).
Proof. by destruct r. Qed.

Lemma only_calls_fmap {A B} (g : A -> B) (p : prog A) :
  only_calls P p -> only_calls P (g <$> p).
Proof. intros Hp. by apply (only_calls_bind p (fun a => Ret (g a))). Qed.

Lemma only_calls_perform {X} (c : call X) :
  P _ c = true -> only_calls P (perform c).
Proof. intros Hc. simpl. split; [done|]. intros r. apply only_calls_lift. Qed.

End OnlyCalls.

Ltac calls_step :=
  first
    [ apply only_calls_lift
    | apply only_calls_perform; reflexivity
    | apply only_calls_fmap
    | apply only_calls_bind; [|intros ?]
    | apply only_calls_try; [|intros ?]
    | exact I
    | case_match ].

(** The image resolver talks to the image service and to nothing else. *)
Lemma image_uuid_from_ref_calls is_uuid_like image_ref :
  only_calls (@image_service_call) (_image_uuid_from_ref is_uuid_like image_ref).
Proof.
  unfold _image_uuid_from_ref, lookup_by_id, lookup_by_name. repeat calls_step.
Qed.

Section CreateImage.

Variable is_uuid_like : value -> bool.

Lemma volume_type_lookup_not_image present ref t :
  Forall (fun ev => image_event ev = false)
    (looked_up present (volume_type_lookup is_uuid_like ref) t).
Proof.
  apply looked_up_not_image. unfold volume_type_lookup. by destruct (is_uuid_like ref).
Qed.

Ltac not_image_piece :=
  first
    [ apply volume_type_lookup_not_image
    | by apply looked_up_not_image
    | by repeat constructor ].

Ltac undispatched_here lem H Hin :=
  exfalso;
  repeat match type of Hin with
    | In _ (_ ++ _) =>
        apply in_app_or in Hin as [Hin|Hin];
        [eapply in_clean in Hin; [done|clean_piece]|]
    end;
  apply lem in H as [H _]; rewrite Forall_forall in H;
  by apply list_elem_of_In, H in Hin.

Ltac undispatched_aux H Hin :=
  exfalso;
  repeat match type of Hin with
    | In _ (_ ++ _) =>
        apply in_app_or in Hin as [Hin|Hin];
        [eapply in_clean in Hin; [done|clean_piece]|]
    end;
  eapply only_auxiliary_events in H;
  [|first [ by apply only_auxiliary_perform | apply only_auxiliary_lift
          | apply derive_size_auxiliary | apply resolve_image_auxiliary ]];
  rewrite Forall_forall in H;
  by apply list_elem_of_In, H in Hin.

(** A run of [create] that reaches the volume API, cut at the image step. *)
Lemma exec_create_image body tr out size name description kwargs r :
  exec (create is_uuid_like body) tr out ->
  In (Ev (volume_api_create size name description kwargs) r) tr ->
  ∃ raw kw kw' before image_tr after,
    body_volume body = inr raw ∧
    tr = before ++ image_tr ++ after ∧
    Forall (fun ev => image_event ev = false) before ∧
    Forall (fun ev => image_event ev = false) after ∧
    kw !! "image_id" = None ∧
    exec (resolve_image is_uuid_like (normalize raw) kw) image_tr (inr kw') ∧
    kwargs !! "image_id" = kw' !! "image_id".
Proof.
  unfold create. intros H Hin.
  apply exec_bind in H as [(e & -> & H)|([] & t0 & tr0 & -> & H0 & H)].
  { undispatched_aux H Hin. }
  apply exec_perform in H0 as ->.
  apply exec_bind in H as [(e & -> & H)|(raw & t1 & tr1 & -> & H1 & H)].
  { undispatched_aux H Hin. }
  apply exec_lift in H1 as [-> Hraw].
  apply exec_bind in H as [(e & -> & H)|([] & t2 & tr2 & -> & H2 & H)].
  { undispatched_aux H Hin. }
  apply exec_perform in H2 as ->.
  set (volume := normalize raw) in *.
  apply exec_bind in H as [(e & -> & H)|(kw1 & t3 & tr3 & -> & H3 & H)].
  { undispatched_here (resolve_volume_type_err is_uuid_like volume ∅) H Hin. }
  apply resolve_volume_type_ok in H3 as (t & -> & ->).
  apply exec_bind in H as [(e & -> & H)|(kw2 & t4 & tr4 & -> & H4 & H)].
  { undispatched_here resolve_snapshot_err H Hin. }
  apply resolve_snapshot_ok in H4 as (snapshot & -> & -> & Hsnap).
  apply exec_bind in H as [(e & -> & H)|(kw3 & t5 & tr5 & -> & H5 & H)].
  { undispatched_here resolve_source_volume_err H Hin. }
  apply resolve_source_volume_ok in H5 as (source_volume & -> & -> & Hvol).
  apply exec_bind in H as [(e & -> & H)|(kw4 & t6 & tr6 & -> & H6 & H)].
  { undispatched_here resolve_source_replica_err H Hin. }
  apply resolve_source_replica_ok in H6 as (source_replica & -> & -> & Hrep).
  apply exec_bind in H as [(e & -> & H)|(kw5 & t7 & tr7 & -> & H7 & H)].
  { undispatched_here resolve_consistencygroup_err H Hin. }
  apply resolve_consistencygroup_ok in H7 as (group & -> & -> & Hgroup).
  apply exec_bind in H as [(e & -> & H)|(size' & t8 & tr8 & -> & H8 & H)].
  { undispatched_aux H Hin. }
  assert (t8 = []) as ->.
  { erewrite derive_size_by_priority in H8 by (by simplify_map_eq).
    by apply exec_lift in H8 as [-> _]. }
  clear H8.
  apply exec_bind in H as [(e & -> & H)|(kw6 & t9 & tr9 & -> & H9 & H)].
  { undispatched_aux H Hin. }
  assert (Forall (fun ev => image_event ev = false) tr9 ∧
          ∀ ev, In ev tr9 ->
                dispatched ev = None ∨
                dispatched ev =
                  Some (size', get volume "display_name" VNone,
                        get volume "display_description" VNone,
                        <["multiattach":=get volume "multiattach" (VBool false)]>
                          (<["scheduler_hints":=get volume "scheduler_hints" VNone]>
                             (<["availability_zone":=
                                  get volume "availability_zone" VNone]> kw6))))
    as [Hafter Hcreate].
  { apply exec_bind in H as [(e & -> & H)|(new_volume & t10 & tr10 & -> & H10 & H)].
    - apply exec_perform in H as ->. split; [by repeat constructor|].
      intros ev [<-|[]]. by right.
    - apply exec_perform in H10 as ->. apply exec_perform in H as ->.
      split; [by repeat constructor|].
      intros ev [<-|[<-|[]]]; [by right|by left]. }
  assert (dispatched (Ev (volume_api_create size name description kwargs) r) =
          Some (size', get volume "display_name" VNone,
                get volume "display_description" VNone,
                <["multiattach":=get volume "multiattach" (VBool false)]>
                  (<["scheduler_hints":=get volume "scheduler_hints" VNone]>
                     (<["availability_zone":=
                          get volume "availability_zone" VNone]> kw6)))) as Heq.
  { repeat match type of Hin with
           | In _ (_ ++ tr9) => fail 1
           | In _ (_ ++ _) =>
               apply in_app_or in Hin as [Hin|Hin];
               [exfalso; eapply in_clean in Hin; [done|clean_piece]|]
           end.
    apply in_app_or in Hin as [Hin|Hin].
    - exfalso. eapply only_auxiliary_events in H9; [|apply resolve_image_auxiliary].
      rewrite Forall_forall in H9. by apply list_elem_of_In, H9 in Hin.
    - by destruct (Hcreate _ Hin) as [Hnone|Hsome]. }
  simpl in Heq. simplify_eq.
  eexists raw, _, kw6,
    ([Ev (assert_valid_body body "volume") (inr ())] ++ [] ++
     [Ev (validate_name_and_description raw) (inr ())] ++
     looked_up _ _ t ++ looked_up _ _ snapshot ++ looked_up _ _ source_volume ++
     looked_up _ _ source_replica ++ looked_up _ _ group), t9, tr9.
  split; [done|]. split; [cbn [app]; rewrite <- ?app_assoc; reflexivity|].
  split_and!; [rewrite !Forall_app; split_and!; not_image_piece|done| |exact H9|].
  - destruct (truthy (get volume "volume_type" VNone)); by simplify_map_eq.
  - by simplify_map_eq.
Qed.


Lemma image_service_not_image ev :
  image_event ev = false -> image_service_event ev = false.
Proof. destruct ev as [X c r]. by destruct c. Qed.

(** X4. The image step of [create] is gated.  The extension manager is
    asked once whether image creation is loaded, whatever the request.
    When it is not, or when the request has neither [image_id] nor
    [imageRef] ([image_id] winning over [imageRef]), the image service is
    not called at all and the keyword arguments carry no [image_id]: an
    image reference sent to a deployment without the extension is dropped
    without an error.  When it is loaded and there is a reference, the
    command carries an [image_id]. *)
Theorem create_image_gate {St} (h : handler St) s body volume tr out s'
    size name description kwargs r :
  body_volume body = inr volume ->
  run h (create is_uuid_like body) s = (tr, out, s') ->
  In (Ev (volume_api_create size name description kwargs) r) tr ->
  let image_ref :=
    match volume !! "image_id" with
    | Some v => v
    | None => get volume "imageRef" VNone
    end in
  ∃ loaded,
    In (Ev (ext_mgr_is_loaded "os-image-create") (inr loaded)) tr ∧
    (∀ alias r', In (Ev (ext_mgr_is_loaded alias) r') tr -> r' = inr loaded) ∧
    if loaded && negb (is_None image_ref)
    then is_Some (kwargs !! "image_id")
    else kwargs !! "image_id" = None ∧
         Forall (fun ev => image_service_event ev = false) tr.
Proof.
  intros Hbody Hrun Hin image_ref. apply run_exec in Hrun.
  destruct (exec_create_image _ _ _ _ _ _ _ _ Hrun Hin)
    as (raw & kw & kw' & before & image_tr & after & Hraw & -> & Hbefore & Hafter &
        Hkw & Himage & Hid).
  assert (raw = volume) as -> by congruence.
  apply exec_resolve_image in Himage as (loaded & rest & -> & Hrest).
  destruct (get_normalize_aliased volume) as (_ & _ & Href).
  cbv zeta in Hrest. rewrite Href in Hrest. fold image_ref in Hrest.
  exists loaded. split; [|split].
  - apply in_or_app. right. by left.
  - intros alias r' Hin'.
    apply in_app_or in Hin' as [Hin'|Hin'].
    { rewrite Forall_forall in Hbefore. by apply list_elem_of_In, Hbefore in Hin'. }
    apply in_app_or in Hin' as [[Hin'|Hin']|Hin'].
    + apply (f_equal loaded_reply) in Hin'. simpl in Hin'. by simplify_eq.
    + exfalso. destruct (loaded && negb (is_None image_ref)).
      * destruct Hrest as (image_uuid & Hexec & _).
        eapply only_calls_events in Hexec; [|apply image_uuid_from_ref_calls].
        rewrite Forall_forall in Hexec. by apply list_elem_of_In, Hexec in Hin'.
      * destruct Hrest as [-> _]. done.
    + rewrite Forall_forall in Hafter. by apply list_elem_of_In, Hafter in Hin'.
  - destruct (loaded && negb (is_None image_ref)).
    + destruct Hrest as (image_uuid & _ & ->). rewrite Hid, lookup_insert_eq. by eexists.
    + destruct Hrest as [-> ->]. split; [by rewrite Hid|].
      rewrite !Forall_app. split_and!.
      * eapply Forall_impl; [exact Hbefore|]. apply image_service_not_image.
      * by repeat constructor.
      * eapply Forall_impl; [exact Hafter|]. apply image_service_not_image.
Qed.

End CreateImage.

(** An image reference sent while image creation is not loaded. *)
Example run_create_image_ignored :
  let volume : dict := {["imageRef" := VStr "cirros"; "size" := VInt 1]} in
  let kwargs := assembled volume None VNone VNone VNone VNone None in
  run strict (create canonical_uuid (request volume)) () =
    ([Ev (assert_valid_body (request volume) "volume") (inr ());
      Ev (validate_name_and_description volume) (inr ());
      Ev (ext_mgr_is_loaded "os-image-create") (inr false);
      Ev (volume_api_create (VInt 1) VNone VNone kwargs) (inr VNone);
      Ev (view_builder_detail VNone) (inr VNone)],
     inr VNone, ()).
Proof. vm_compute. reflexivity. Qed.

(** The image cirros given by name under [image_id], the extension loaded. *)
Example run_create_from_image :
  let volume : dict := {["image_id" := VStr "cirros"; "size" := VInt 1]} in
  let kwargs :=
    assembled (normalize volume) None VNone VNone VNone VNone
      (Some (VStr cirros_id)) in
  run deployment (create canonical_uuid (request volume)) () =
    ([Ev (assert_valid_body (request volume) "volume") (inr ());
      Ev (validate_name_and_description volume) (inr ());
      Ev (ext_mgr_is_loaded "os-image-create") (inr true);
      Ev get_default_image_service (inr ());
      Ev (image_service_detail {["name" := VStr "cirros"]}) (inr [image_cirros]);
      Ev (volume_api_create (VInt 1) VNone VNone kwargs) (inr VNone);
      Ev (view_builder_detail VNone) (inr VNone)],
     inr VNone, ()).
Proof. vm_compute. reflexivity. Qed.

Lemma create_image_gate_witness :
  let volume : dict := {["imageRef" := VStr "cirros"; "size" := VInt 1]} in
  let kwargs := assembled volume None VNone VNone VNone VNone None in
  ∃ loaded,
    loaded = false ∧ kwargs !! "image_id" = None.
Proof.
  intros volume kwargs.
  destruct (create_image_gate canonical_uuid strict () (request volume) volume
              _ _ _ (VInt 1) VNone VNone kwargs (inr VNone)
              eq_refl run_create_image_ignored)
    as (loaded & Hasked & Honce & Hgate).
  { simpl. tauto. }
  exists loaded.
  assert (loaded = false) as ->.
  { destruct Hasked as [H|[H|[H|[H|[H|[]]]]]]; apply (f_equal loaded_reply) in H;
      simpl in H; by simplify_eq. }
  split; [done|]. exact (proj1 Hgate).
Defined.

(** * What the image resolver lets out *)

Lemma name_search_outcome_errors image_ref r e :
  name_search_outcome image_ref r = inl e ->
  e = invalid_image_identifier ∨ ∃ explanation, e = HTTPConflict explanation.
Proof.
  unfold name_search_outcome, multiple_matches.
  destruct r as [e'|[|img [|img' images]]]; intros Hout.
  - destruct e'; simplify_eq; eauto.
  - simplify_eq. by left.
  - destruct (subscript img "id"); simplify_eq. by left.
  - simplify_eq. right. by eexists.
Qed.

Section ImageOutcomes.

Variable is_uuid_like : value -> bool.

(** X5. Once the image service is at hand, the resolver ends in an
    identifier, in one of its two BadRequests, or in a Conflict, whatever
    the catalog raises: a failure of [show] or [detail] never leaves the
    resolver as it is.  It asks the catalog at most once by identifier and
    at most once by name. *)
Theorem image_resolver_outcomes {St} (h : handler St) image_ref s0 s1 :
  h _ get_default_image_service s0 = (inr (), s1) ->
  let '(tr, out, _) := run h (_image_uuid_from_ref is_uuid_like image_ref) s0 in
  (length (filter (fun ev => is_Some (shown ev)) tr) <= 1)%nat ∧
  (length (filter (fun ev => is_Some (searched ev)) tr) <= 1)%nat ∧
  (length tr <= 3)%nat ∧
  match out with
  | inr _ => True
  | inl e =>
      e = invalid_image_ref ∨ e = invalid_image_identifier ∨
      ∃ explanation, e = HTTPConflict explanation
  end.
Proof.
  intros Hsvc.
  assert ((∃ ref, image_ref = VStr ref) ∨ ∀ ref, image_ref ≠ VStr ref)
    as [[ref ->]|Hns].
  { destruct image_ref; eauto. }
  - rewrite run_image_uuid_from_ref, Hsvc. cbv zeta. unfold name_search.
    destruct (is_uuid_like (VStr (pop (split "/" ref)))).
    + destruct (h _ (image_service_show (pop (split "/" ref))) s1) as [r1 s2].
      destruct (identified r1) as [id|].
      * split_and!; [vm_compute; lia|vm_compute; lia|simpl; lia|done].
      * destruct (h _ (image_service_detail {["name" := VStr ref]}) s2) as [r2 s3].
        split_and!; [vm_compute; lia|vm_compute; lia|simpl; lia|].
        destruct (name_search_outcome (VStr ref) r2) as [e|id] eqn:Hout; [|done].
        right. by eapply name_search_outcome_errors.
    + destruct (h _ (image_service_detail {["name" := VStr ref]}) s1) as [r2 s3].
      split_and!; [vm_compute; lia|vm_compute; lia|simpl; lia|].
      destruct (name_search_outcome (VStr ref) r2) as [e|id] eqn:Hout; [|done].
      right. by eapply name_search_outcome_errors.
  - rewrite run_image_uuid_from_ref_not_str by done.
    split_and!; [vm_compute; lia|vm_compute; lia|simpl; lia|by left].
Qed.

End ImageOutcomes.

(** The catalog does not know the identifier and finds no such name. *)
Lemma image_resolver_outcomes_witness :
  let unknown := "11111111-2222-3333-4444-555555555555" in
  let '(tr, out, _) :=
    run deployment (_image_uuid_from_ref canonical_uuid (VStr unknown)) () in
  (length (filter (fun ev => is_Some (shown ev)) tr) <= 1)%nat ∧
  (length (filter (fun ev => is_Some (searched ev)) tr) <= 1)%nat ∧
  (length tr <= 3)%nat ∧
  match out with
  | inr _ => True
  | inl e =>
      e = invalid_image_ref ∨ e = invalid_image_identifier ∨
      ∃ explanation, e = HTTPConflict explanation
  end.
Proof.
  exact (image_resolver_outcomes canonical_uuid deployment
           (VStr "11111111-2222-3333-4444-555555555555") () () eq_refl).
Defined.

Example run_image_unknown_identifier :
  let unknown := "11111111-2222-3333-4444-555555555555" in
  run deployment (_image_uuid_from_ref canonical_uuid (VStr unknown)) () =
    ([Ev get_default_image_service (inr ());
      Ev (image_service_show unknown)
        (inl (not_found "Image %s could not be found." (VStr unknown)));
      Ev (image_service_detail {["name" := VStr unknown]}) (inr [])],
     inl invalid_image_identifier, ()).
Proof. vm_compute. reflexivity. Qed.

(** * Every listing has one of the two shapes *)

Lemma exec_for_each_marked volumes tr out :
  exec (for_each (fun volume => perform (add_visible_admin_metadata volume)) volumes)
    tr out ->
  marked volumes tr out.
Proof.
  revert tr out. induction volumes as [|volume volumes IH]; intros tr out H.
  - destruct H as [-> ->]. constructor.
  - cbn [for_each] in H.
    apply exec_bind in H as [(e & -> & H)|(volume' & t1 & t2 & -> & H1 & H)].
    { apply exec_perform in H as ->. constructor. }
    apply exec_perform in H1 as ->.
    apply exec_bind in H as [(e & -> & H)|(volumes' & t3 & t4 & -> & H3 & H)].
    { apply IH in H. apply (marked_cons volume volume') in H. exact H. }
    destruct H as [-> ->]. rewrite app_nil_r. apply IH in H3.
    apply (marked_cons volume volume') in H3. exact H3.
Qed.

Section ListingRuns.

Variable query_volume_filters : list string.

Lemma exec_get_volumes params is_detail tr out :
  exec (_get_volumes query_volume_filters params is_detail) tr out ->
  listing_run query_volume_filters params is_detail tr out.
Proof.
  unfold _get_volumes. intros H.
  apply exec_bind in H
    as [(e & -> & H)|([[[marker limit] offset] params1] & t1 & r1 & -> & H1 & H)].
  { apply exec_perform in H as ->.
    eapply listing_refused; [done|by repeat constructor|].
    intros ev e' Hin Hf.
    repeat (destruct Hin as [<-|Hin]; [simpl in Hf; by simplify_eq|]).
    destruct Hin. }
  apply exec_perform in H1 as ->.
  apply exec_bind in H
    as [(e & -> & H)|([[sort_keys sort_dirs] params2] & t2 & r2 & -> & H2 & H)].
  { apply exec_perform in H as ->.
    eapply listing_refused; [done|by repeat constructor|].
    intros ev e' Hin Hf.
    repeat (destruct Hin as [<-|Hin]; [simpl in Hf; by simplify_eq|]).
    destruct Hin. }
  apply exec_perform in H2 as ->.
  apply exec_bind in H as [(e & -> & H)|(stripped & t3 & r3 & -> & H3 & H)].
  { apply exec_perform in H as ->.
    eapply listing_refused; [done|by repeat constructor|].
    intros ev e' Hin Hf.
    repeat (destruct Hin as [<-|Hin]; [simpl in Hf; by simplify_eq|]).
    destruct Hin. }
  apply exec_perform in H3 as ->.
  apply exec_bind in H as [(e & -> & H)|([] & t4 & r4 & -> & H4 & H)].
  { apply exec_perform in H as ->.
    eapply listing_refused; [done|by repeat constructor|].
    intros ev e' Hin Hf.
    repeat (destruct Hin as [<-|Hin]; [simpl in Hf; by simplify_eq|]).
    destruct Hin. }
  apply exec_perform in H4 as ->.
  apply exec_bind in H as [(e & -> & H)|(volumes & t5 & r5 & -> & H5 & H)].
  { apply exec_perform in H as ->.
    by eapply (listing_queried _ _ _ _ _ _ _ _ _ _ _ _ _ (inl e) []). }
  apply exec_perform in H5 as ->.
  eapply (listing_queried _ _ _ _ _ _ _ _ _ _ _ _ _ (inr volumes) r5); [done|].
  apply exec_bind in H as [(e & -> & H)|(volumes' & t6 & r6 & -> & H6 & H)].
  { apply exec_for_each_marked in H. by eapply tail_mark_failed. }
  apply exec_for_each_marked in H6.
  apply exec_bind in H as [(e & -> & H)|([] & t7 & r7 & -> & H7 & H)].
  { apply exec_perform in H as ->. by eapply tail_cache_failed. }
  apply exec_perform in H7 as ->.
  eapply tail_viewed; [exact H6|].
  destruct is_detail; apply exec_perform in H as ->; reflexivity.
Qed.

End ListingRuns.

(** * Properties of a listing *)

Lemma marked_events volumes tr out :
  marked volumes tr out -> Forall (fun ev => marking_event ev = true) tr.
Proof. induction 1; by repeat constructor. Qed.

Lemma marked_volumes volumes tr volumes' :
  marked volumes tr (inr volumes') ->
  Forall2 (fun volume volume' =>
             In (Ev (add_visible_admin_metadata volume) (inr volume')) tr)
    volumes volumes'.
Proof.
  intros H. remember (inr volumes') as out eqn:Hout. revert volumes' Hout.
  induction H as [|volume volumes e|volume volume' volumes tr out H IH];
    intros volumes' Hout.
  - simplify_eq. constructor.
  - done.
  - destruct out as [e|rest]; simplify_eq. constructor; [by left|].
    eapply Forall2_impl; [by apply IH|]. intros v v' Hin. by right.
Qed.

Lemma listing_tail_events is_detail volumes tr out :
  listing_tail is_detail volumes tr out ->
  Forall (fun ev => before_query ev = false ∧ queried ev = None ∧
                    query_reply ev = None) tr.
Proof.
  assert (∀ ev, marking_event ev = true ->
                before_query ev = false ∧ queried ev = None ∧ query_reply ev = None)
    as Hmark.
  { intros [X c r] Hev. by destruct c. }
  intros [e Hm _|marks volumes' e Hm -> _|marks volumes' Hm ->].
  - eapply Forall_impl; [by eapply marked_events|]. exact Hmark.
  - apply Forall_app. split; [|by repeat constructor].
    eapply Forall_impl; [by eapply marked_events|]. exact Hmark.
  - apply Forall_app. split.
    + eapply Forall_impl; [by eapply marked_events|]. exact Hmark.
    + destruct is_detail; by repeat constructor.
Qed.

Lemma alias_sort_keys_positions (sort_keys : list value) :
  length (alias_sort_keys sort_keys) = length sort_keys ∧
  ∀ i, list_index "name" sort_keys ≠ Some i ->
       alias_sort_keys sort_keys !! i = sort_keys !! i.
Proof.
  unfold alias_sort_keys. destruct (list_index "name" sort_keys) as [n|]; [|done].
  split; [apply length_insert|].
  intros i Hi. apply list_lookup_insert_ne. congruence.
Qed.

Section ListingProperties.

Variable query_volume_filters : list string.
Context {St : Type} (h : handler St).

(** X6. A listing stops where a call fails.  When the parsing of the
    pagination or sort parameters, the stripping of the filters or their
    check raises, that exception is the outcome and the volume API is not
    queried; when the query itself raises, that exception is the outcome
    and nothing is marked, cached or viewed. *)
Theorem listing_refusal_stops params is_detail s tr out s' ev e :
  run h (_get_volumes query_volume_filters params is_detail) s = (tr, out, s') ->
  In ev tr ->
  failure ev = Some e ->
  (before_query ev = true ->
   out = inl e ∧ Forall (fun ev' => before_query ev' = true) tr) ∧
  (is_Some (queried ev) ->
   out = inl e ∧ ∃ parsed, tr = parsed ++ [ev] ∧
                           Forall (fun ev' => before_query ev' = true) parsed).
Proof.
  intros Hrun Hin Hfail. apply run_exec, exec_get_volumes in Hrun.
  destruct Hrun as [e' -> Hbefore Hsame|marker limit offset params1 sort_keys
                      sort_dirs params2 stripped found rest -> Hrest].
  - split.
    + intros _. by rewrite (Hsame _ _ Hin Hfail).
    + intros [q Hq]. rewrite Forall_forall in Hbefore.
      apply list_elem_of_In, Hbefore in Hin. destruct ev as [X c r]. by destruct c.
  - apply in_app_or in Hin as [Hin|Hin].
    + repeat (destruct Hin as [<-|Hin]; [by simplify_eq|]).
      destruct Hin as [<-|[]]. split; [done|]. intros _.
      destruct found as [e'|volumes]; [|done]. simpl in Hfail. simplify_eq.
      destruct Hrest as [-> ->]. split; [done|].
      eexists [_; _; _; _]. split; [reflexivity|]. by repeat constructor.
    + destruct found as [e'|volumes]; [by destruct Hrest as [-> _]|].
      apply listing_tail_events in Hrest. rewrite Forall_forall in Hrest.
      apply list_elem_of_In, Hrest in Hin as (Hb & Hq & _).
      split; [congruence|]. rewrite Hq. by intros [? ?].
Qed.

(** X7. The view of a listing is the one asked for, built once and last:
    the summary for [index], the detailed one for [detail].  It is built
    from the volumes the query handed back, one for one and each as
    [add_visible_admin_metadata] left it, right after these were cached,
    and its reply is the outcome. *)
Theorem listing_view_selected params is_detail s tr out s' ev detailed volumes r :
  run h (_get_volumes query_volume_filters params is_detail) s = (tr, out, s') ->
  In ev tr ->
  listed ev = Some (detailed, volumes, r) ->
  detailed = is_detail ∧ out = r ∧
  (∃ earlier, tr = earlier ++ [Ev (cache_db_volumes volumes) (inr ()); ev] ∧
              Forall (fun ev' => listed ev' = None) earlier) ∧
  ∃ query found,
    In query tr ∧ query_reply query = Some (inr found) ∧
    Forall2 (fun volume volume' =>
               In (Ev (add_visible_admin_metadata volume) (inr volume')) tr)
      found volumes.
Proof.
  intros Hrun Hin Hlisted. apply run_exec, exec_get_volumes in Hrun.
  destruct Hrun as [e' -> Hbefore Hsame|marker limit offset params1 sort_keys
                      sort_dirs params2 stripped found rest -> Hrest].
  { rewrite Forall_forall in Hbefore. apply list_elem_of_In, Hbefore in Hin.
    destruct ev as [X c r']. by destruct c. }
  apply in_app_or in Hin as [Hin|Hin].
  { repeat (destruct Hin as [<-|Hin]; [by simplify_eq|]). destruct Hin. }
  destruct found as [e'|found]; [by destruct Hrest as [-> _]|].
  assert (∀ marks out', marked found marks out' ->
                        Forall (fun ev' => listed ev' = None) marks) as Hmarks.
  { intros marks out' Hm. eapply Forall_impl; [by eapply marked_events|].
    intros [X c r'] Hev. by destruct c. }
  destruct Hrest as [e Hm _|marks volumes' e Hm -> _|marks volumes' Hm ->].
  - apply Hmarks in Hm. rewrite Forall_forall in Hm.
    apply list_elem_of_In, Hm in Hin. congruence.
  - apply in_app_or in Hin as [Hin|[<-|[]]]; [|done].
    apply Hmarks in Hm. rewrite Forall_forall in Hm.
    apply list_elem_of_In, Hm in Hin. congruence.
  - apply in_app_or in Hin as [Hin|[<-|[<-|[]]]]; [|done|].
    { apply Hmarks in Hm. rewrite Forall_forall in Hm.
      apply list_elem_of_In, Hm in Hin. congruence. }
    assert (detailed = is_detail ∧ volumes = volumes' ∧ r = out) as (-> & -> & ->).
    { destruct is_detail; simpl in Hlisted; by simplify_eq. }
    split_and!; [done|done| |].
    + eexists (_ ++ marks). split.
      * rewrite <- app_assoc. reflexivity.
      * apply Forall_app. split; [by repeat constructor|by eapply Hmarks].
    + eexists _, found. split_and!.
      * apply in_or_app. left. do 4 right. by left.
      * done.
      * eapply Forall2_impl; [by apply marked_volumes|].
        intros v v' Hv. apply in_or_app. right. apply in_or_app. by left.
Qed.


End ListingProperties.

Lemma listing_refusal_stops_witness :
  let params : dict := {["bogus" := VStr "x"]} in
  let refusal := HTTPBadRequest (Msg "Invalid filter keys: %s" (Some (VStr "bogus"))) in
  ∃ tr, run strict (index ["bogus"] params) () = (tr, inl refusal, ()) ∧
        In (Ev (check_volume_filters params) (inl refusal)) tr ∧
        Forall (fun ev => before_query ev = true) tr.
Proof.
  intros params refusal.
  assert (In (Ev (check_volume_filters params) (inl refusal))
            (run strict (index ["bogus"] params) ()).1.1) as Hin.
  { vm_compute. tauto. }
  eexists. split; [reflexivity|]. split; [exact Hin|].
  exact (proj2 (proj1 (listing_refusal_stops ["bogus"] strict params false () _ _ ()
                         _ refusal eq_refl Hin eq_refl) eq_refl)).
Defined.

Lemma listing_view_selected_witness :
  let volumes := [volume_V1; volume_R2] in
  let view := Ev (view_builder_detail_list volumes) (inr (VList volumes)) in
  ∃ tr, run strict (detail [] ∅) () = (tr, inr (VList volumes), ()) ∧
        In view tr ∧
        ∃ earlier, tr = earlier ++ [Ev (cache_db_volumes volumes) (inr ()); view] ∧
                   Forall (fun ev => listed ev = None) earlier.
Proof.
  intros volumes view.
  assert (In view (run strict (detail [] ∅) ()).1.1) as Hin.
  { vm_compute. tauto. }
  eexists. split; [reflexivity|]. split; [exact Hin|].
  exact (proj1 (proj2 (proj2 (listing_view_selected [] strict ∅ true () _ _ ()
                                view true volumes (inr (VList volumes))
                                eq_refl Hin eq_refl)))).
Defined.


(** * Failures and the view of an update *)

Section StopsOnFailure.

Variable conv : forall X, call X -> exn -> exn.

Lemma stops_on_failure_exec {A} (p : prog A) tr out ev e :
  stops_on_failure conv p -> exec p tr out ->
  In ev tr -> failure ev = Some e ->
  (∃ earlier, tr = earlier ++ [ev]) ∧
  out = inl (match ev with Ev c _ => conv _ c e end).
Proof.
  revert tr. induction p as [a|e'|X c k IH]; intros tr Hp H Hin Hfail; simpl in *.
  - by destruct H as [-> _].
  - by destruct H as [-> _].
  - destruct Hp as [Hraise Hk]. destruct H as (r & tr' & -> & H).
    destruct r as [e'|x].
    + rewrite Hraise in H. simpl in H. destruct H as [-> ->].
      destruct Hin as [<-|[]]. simpl in Hfail. simplify_eq.
      split; [by exists []|done].
    + destruct Hin as [<-|Hin]; [done|].
      destruct (IH (inr x) tr' (Hk x) H Hin Hfail) as [[earlier ->] ->].
      split; [|done]. by exists (Ev c (inr x) :: earlier).
Qed.

Lemma stops_on_failure_bind {A B} (p : prog A) (f : A -> prog B) :
  stops_on_failure conv p -> (∀ a, stops_on_failure conv (f a)) ->
  stops_on_failure conv (p ≫= f).
Proof.
  unfold mbind, prog_bind. intros Hp Hf.
  induction p as [a|e|X c k IH]; simpl in *; [done|done|].
  destruct Hp as [Hraise Hk]. split.
  - intros e. by rewrite Hraise.
  - intros x. by apply IH.
Qed.

Lemma stops_on_failure_lift {A} (r : exn + A) : stops_on_failure conv (lift r).
Proof. by destruct r. Qed.

Lemma stops_on_failure_perform {X} (c : call X) :
  (∀ e, conv _ c e = e) -> stops_on_failure conv (perform c).
Proof.
  intros Hc. simpl. split; [intros e; by rewrite Hc|].
  intros x. exact I.
Qed.

End StopsOnFailure.

Ltac stops_step :=
  first
    [ apply stops_on_failure_lift
    | apply stops_on_failure_perform; intros ?; reflexivity
    | apply stops_on_failure_bind; [|intros ?]
    | exact I
    | case_match ].

Lemma update_stops_on_failure id body :
  stops_on_failure (fun X (c : call X) e => if guarded_call c then too_large e else e)
    (update id body).
Proof.
  unfold update. apply stops_on_failure_bind.
  { unfold update_fields, extract_update. cbn [for_fold valid_update_keys].
    repeat stops_step. }
  intros update_dict. apply stops_on_failure_bind.
  { assert (∀ e, match e with
                  | InvalidVolumeMetadataSize msg =>
                      Raise (HTTPRequestEntityTooLarge msg)
                  | _ => Raise e
                  end = (Raise (too_large e) : prog value)) as Hconv
      by (by intros []).
    simpl. split; [exact Hconv|]. intros volume.
    split; [exact Hconv|]. intros _. split; [exact Hconv|]. done. }
  intros volume. repeat stops_step.
Qed.

Section UpdateOutcome.

Context {St : Type} (h : handler St).

(** X9. A failed call ends an update at once, and its exception is the
    outcome: unchanged, except that an [InvalidVolumeMetadataSize] raised
    by the lookup of the volume, the [update.start] notification or the
    volume API's [update] comes out as [HTTPRequestEntityTooLarge] with
    the same message.  The same exception raised by the validation, by
    [add_visible_admin_metadata], by the [update.end] notification or by
    the view builder is not converted. *)
Theorem update_failure_handling id body s tr out s' ev e :
  run h (update id body) s = (tr, out, s') ->
  In ev tr ->
  failure ev = Some e ->
  (∃ earlier, tr = earlier ++ [ev]) ∧
  out = inl (if guarded ev then too_large e else e).
Proof.
  intros Hrun Hin Hfail. apply run_exec in Hrun.
  destruct (stops_on_failure_exec _ _ _ _ _ _ (update_stops_on_failure id body)
              Hrun Hin Hfail) as [Hlast ->].
  split; [done|]. by destruct ev.
Qed.


End UpdateOutcome.

Lemma update_failure_handling_witness :
  let oversized := Msg "Metadata property too large." None in
  let target := VDict {["id" := VStr "V1"; "display_name" := VStr "old"]} in
  let ev := Ev (volume_api_update target {["display_name" := VStr "x"]})
              (inl (InvalidVolumeMetadataSize oversized)) in
  ∃ tr,
    run strict (update (VStr "V1") (request {["name" := VStr "x"]})) () =
      (tr, inl (HTTPRequestEntityTooLarge oversized), ()) ∧
    In ev tr ∧ ∃ earlier, tr = earlier ++ [ev].
Proof.
  intros oversized target ev.
  assert (In ev (run strict (update (VStr "V1") (request {["name" := VStr "x"]})) ()).1.1)
    as Hin.
  { vm_compute. tauto. }
  eexists. split; [reflexivity|]. split; [exact Hin|].
  exact (proj1 (update_failure_handling strict (VStr "V1")
                  (request {["name" := VStr "x"]}) () _ _ () ev
                  (InvalidVolumeMetadataSize oversized) eq_refl Hin eq_refl)).
Defined.


(** * One volume: [show] and [delete] *)

Section LifecycleRuns.

Context {St : Type} (h : Lifecycle.handler St).

(** X11. [show] raises nothing of its own and hides no failure: its
    outcome is an exception exactly when its last call failed with it,
    and nothing is called after a failed call (a volume that is not found
    is neither cached nor viewed).  When it returns, the volume was
    fetched with [viewable_admin_meta=True], cached,
    handed to [add_visible_admin_metadata], and the result is the detail
    view of the record this left. *)
Theorem show_outcome id s tr out s' :
  Lifecycle.run h (Lifecycle.show id) s = (tr, out, s') ->
  (∀ ev e, In ev tr -> Lifecycle.failure ev = Some e ->
           out = inl e ∧ ∃ earlier, tr = earlier ++ [ev]) ∧
  (∀ e, out = inl e -> ∃ ev, In ev tr ∧ Lifecycle.failure ev = Some e) ∧
  (∀ view, out = inr view ->
     ∃ fetched marked,
       tr = [Lifecycle.Ev (Lifecycle.volume_api_get id (Some true)) (inr fetched);
             Lifecycle.Ev (Lifecycle.cache_db_volume fetched) (inr ());
             Lifecycle.Ev (Lifecycle.add_visible_admin_metadata fetched) (inr marked);
             Lifecycle.Ev (Lifecycle.view_builder_detail marked) (inr view)]).
Proof.
  unfold Lifecycle.show. simpl. intros Hrun.
  destruct (h _ (Lifecycle.volume_api_get id (Some true)) s) as [[e1|fetched] s1];
    simpl in Hrun.
  { simplify_eq. split_and!.
    - intros ev e [<-|[]] Hf. simpl in Hf. simplify_eq. split; [done|by exists []].
    - intros e [= <-]. eexists. split; [by left|done].
    - done. }
  destruct (h _ (Lifecycle.cache_db_volume fetched) s1) as [[e2|[]] s2]; simpl in Hrun.
  { simplify_eq. split_and!.
    - intros ev e [<-|[<-|[]]] Hf; simpl in Hf; simplify_eq.
      split; [done|by eexists [_]].
    - intros e [= <-]. eexists. split; [right; by left|done].
    - done. }
  destruct (h _ (Lifecycle.add_visible_admin_metadata fetched) s2) as [[e3|marked] s3];
    simpl in Hrun.
  { simplify_eq. split_and!.
    - intros ev e [<-|[<-|[<-|[]]]] Hf; simpl in Hf; simplify_eq.
      split; [done|by eexists [_; _]].
    - intros e [= <-]. eexists. split; [do 2 right; by left|done].
    - done. }
  destruct (h _ (Lifecycle.view_builder_detail marked) s3) as [[e4|view] s4];
    simpl in Hrun; simplify_eq.
  - split_and!.
    + intros ev e [<-|[<-|[<-|[<-|[]]]]] Hf; simpl in Hf; simplify_eq.
      split; [done|by eexists [_; _; _]].
    + intros e [= <-]. eexists. split; [do 3 right; by left|done].
    + done.
  - split_and!.
    + intros ev e [<-|[<-|[<-|[<-|[]]]]] Hf; simpl in Hf; simplify_eq.
    + done.
    + intros view' [= <-]. by eexists _, _.
Qed.

(** X12. [delete] deletes only what it found.  The volume API's [delete]
    is called at most once, last, on the record the lookup returned and
    with the cascade flag parsed from the request parameters; a failed
    parse or a failed lookup ends the operation with its exception before
    anything is deleted.  The response is 202, and it is returned exactly
    when that call returned. *)
Theorem delete_only_found id params s tr out s' :
  Lifecycle.run h (Lifecycle.delete id params) s = (tr, out, s') ->
  (∀ ev volume cascade r,
     In ev tr -> Lifecycle.deleted ev = Some (volume, cascade, r) ->
     tr = [Lifecycle.Ev (Lifecycle.get_bool_param "cascade" params) (inr cascade);
           Lifecycle.Ev (Lifecycle.volume_api_get id None) (inr volume);
           ev] ∧
     out = match r with
           | inl e => inl e
           | inr _ => inr (Lifecycle.Response 202)
           end) ∧
  (∀ resp, out = inr resp ->
     resp = Lifecycle.Response 202 ∧
     ∃ ev volume cascade,
       In ev tr ∧ Lifecycle.deleted ev = Some (volume, cascade, inr ())) ∧
  (∀ ev e, In ev tr -> Lifecycle.failure ev = Some e ->
           out = inl e ∧ ∃ earlier, tr = earlier ++ [ev]).
Proof.
  unfold Lifecycle.delete. simpl. intros Hrun.
  destruct (h _ (Lifecycle.get_bool_param "cascade" params) s) as [[e1|cascade] s1];
    simpl in Hrun.
  { simplify_eq. split_and!.
    - by intros ev volume cascade r [<-|[]] Hd.
    - done.
    - intros ev e [<-|[]] Hf. simpl in Hf. simplify_eq. split; [done|by exists []]. }
  destruct (h _ (Lifecycle.volume_api_get id None) s1) as [[e2|volume] s2];
    simpl in Hrun.
  { simplify_eq. split_and!.
    - by intros ev volume cascade' r [<-|[<-|[]]] Hd.
    - done.
    - intros ev e [<-|[<-|[]]] Hf; simpl in Hf; simplify_eq.
      split; [done|by eexists [_]]. }
  destruct (h _ (Lifecycle.volume_api_delete volume cascade) s2) as [[e3|[]] s3];
    simpl in Hrun; simplify_eq.
  - split_and!.
    + intros ev volume' cascade' r [<-|[<-|[<-|[]]]] Hd; simpl in Hd; by simplify_eq.
    + done.
    + intros ev e [<-|[<-|[<-|[]]]] Hf; simpl in Hf; simplify_eq.
      split; [done|by eexists [_; _]].
  - split_and!.
    + intros ev volume' cascade' r [<-|[<-|[<-|[]]]] Hd; simpl in Hd; by simplify_eq.
    + intros resp [= <-]. split; [done|]. eexists _, _, _.
      split; [do 2 right; by left|done].
    + intros ev e [<-|[<-|[<-|[]]]] Hf; simpl in Hf; simplify_eq.
Qed.

End LifecycleRuns.

Lemma show_outcome_witness :
  let missing := not_found "Volume %s could not be found." (VStr "V9") in
  ∃ tr,
    Lifecycle.run Lifecycle.catalogue (Lifecycle.show (VStr "V9")) () =
      (tr, inl missing, ()) ∧
    ∃ ev, In ev tr ∧ Lifecycle.failure ev = Some missing.
Proof.
  intros missing. eexists. split; [reflexivity|].
  exact (proj1 (proj2 (show_outcome Lifecycle.catalogue (VStr "V9") () _ _ () eq_refl))
           missing eq_refl).
Defined.

Lemma delete_only_found_witness :
  let params : dict := {["cascade" := VStr "true"]} in
  ∃ tr,
    Lifecycle.run Lifecycle.catalogue (Lifecycle.delete (VStr "V1") params) () =
      (tr, inr (Lifecycle.Response 202), ()) ∧
    ∃ ev volume cascade,
      In ev tr ∧ Lifecycle.deleted ev = Some (volume, cascade, inr ()).
Proof.
  intros params. eexists. split; [reflexivity|].
  exact (proj2 (proj1 (proj2 (delete_only_found Lifecycle.catalogue (VStr "V1") params
                                () _ _ () eq_refl))
                  (Lifecycle.Response 202) eq_refl)).
Defined.
